(** * Drips SDK: receiver canonicalization, validation and account estimation

    A shallow embedding of the parts of the Drips JavaScript SDK that
    prepare receiver lists for the chain, validate caller input and
    drive the account estimator:

    - [src/common/DripsError.ts]: the error codes and error factories;
    - [src/common/validators.ts]: the input validators and the validator
      of a client's provider;
    - [src/AddressApp/AddressAppClient.ts]: [#formatDripsReceivers],
      [#formatSplitReceivers], [setDrips], [setSplits];
    - [ImmutableSplitsDriverClient.createSplits];
    - [DripsSubgraphClient.getUsersStreamingToUser];
    - [AccountEstimator.create], [AccountEstimator.refreshAccount] and
      [AccountEstimator.estimate].

    JavaScript arrays are mutable objects reached through references, so
    the array code runs over a store; thrown exceptions are explicit
    results. *)

From Stdlib Require Import ZArith String Ascii.
From stdpp Require Import gmap strings list sorting pretty.

Local Open Scope string_scope.
Local Open Scope list_scope.
Local Open Scope Z_scope.

(** ** JavaScript values that end up in an error context *)

(** The [context] of a [DripsError] is typed [unknown]; the values the
    validators store there are numbers ([NaN] among them), strings,
    receiver objects and arrays of them.  [null] and [undefined] are not
    told apart by any code modelled here ([isNullOrUndefined], [!x]). *)
Unset Elimination Schemes.
Inductive JsValue : Type :=
  | JsNullish
  | JsBigInt (z : Z)
  | JsNaN
  | JsString (s : string)
  | JsObject (fields : list (string * JsValue))
  | JsArray (items : list JsValue).
Set Elimination Schemes.

(** ** src/common/DripsError.ts *)

Inductive DripsErrorCode : Type :=
  | INVALID_ADDRESS
  | INVALID_ARGUMENT
  | MISSING_ARGUMENT
  | UNSUPPORTED_NETWORK
  | SUBGRAPH_QUERY_ERROR
  | INVALID_DRIPS_RECEIVER
  | INVALID_SPLITS_RECEIVER.

Global Instance DripsErrorCode_eq_dec : EqDecision DripsErrorCode.
Proof. solve_decision. Defined.

(** The object literal each factory passes as [context]. *)
Inductive ErrorContext : Type :=
  | NoContext
  | InvalidAddressContext (invalidAddress : string)
  | MissingArgumentContext (missingArgumentName : string)
  | UnsupportedChainContext (unsupportedChainId : Z)
  | InvalidArgumentContext (name : string) (value : JsValue)
  | InvalidPropertyContext (name : string) (value : JsValue).

Record DripsError : Type := mkDripsError {
  code : DripsErrorCode;
  message : string;
  context : ErrorContext
}.

Module DripsErrors.

Definition addressError (msg address : string) : DripsError :=
  mkDripsError INVALID_ADDRESS msg (InvalidAddressContext address).

Definition argumentMissingError (msg argName : string) : DripsError :=
  mkDripsError MISSING_ARGUMENT msg (MissingArgumentContext argName).


Definition argumentError (msg argName : string) (argValue : JsValue) : DripsError :=
  mkDripsError INVALID_ARGUMENT msg (InvalidArgumentContext argName argValue).

Definition splitsReceiverError (msg invalidPropertyName : string)
    (invalidPropertyValue : JsValue) : DripsError :=
  mkDripsError INVALID_SPLITS_RECEIVER msg
    (InvalidPropertyContext invalidPropertyName invalidPropertyValue).

Definition dripsReceiverError (msg invalidPropertyName : string)
    (invalidPropertyValue : JsValue) : DripsError :=
  mkDripsError INVALID_DRIPS_RECEIVER msg
    (InvalidPropertyContext invalidPropertyName invalidPropertyValue).

(** Modelled from the spec: [validateDripsReceiverConfig] throws
    [DripsErrors.dripsReceiverConfigError], a factory that
    [src/common/DripsError.ts] does not declare.  The spec files a failed
    config validation under the invalid-receiver kind, drips-specific; the
    factory is taken to build its error the way its sibling
    [dripsReceiverError] does, from the same three arguments. *)
Definition dripsReceiverConfigError (msg invalidPropertyName : string)
    (invalidPropertyValue : JsValue) : DripsError :=
  mkDripsError INVALID_DRIPS_RECEIVER msg
    (InvalidPropertyContext invalidPropertyName invalidPropertyValue).

Definition subgraphQueryError (msg : string) : DripsError :=
  mkDripsError SUBGRAPH_QUERY_ERROR msg NoContext.

End DripsErrors.

(** ** Exceptions *)

(** What a [throw] carries: one of the SDK's own errors, or the error ethers
    raises when [BigNumber.from] is handed a string it cannot read. *)
Inductive Thrown : Type :=
  | ThrownDrips (e : DripsError)
  | ThrownInvalidBigNumber (value : string).

(** A computation that returns normally or throws. *)
Inductive result (A : Type) : Type :=
  | Ok (a : A)
  | Throw (t : Thrown).
Arguments Ok {A} a.
Arguments Throw {A} t.

Definition rbind {A B} (m : result A) (k : A → result B) : result B :=
  match m with
  | Ok a => k a
  | Throw t => Throw t
  end.

Declare Scope js_scope.
Delimit Scope js_scope with js.
Notation "'let!' x ':=' m 'in' k" := (rbind m (λ x, k))
  (at level 10, x name, m at level 100, k at level 200) : js_scope.
Notation "m ';;!' k" := (rbind m (λ _, k))
  (at level 100, k at level 200, right associativity) : js_scope.
Local Open Scope js_scope.

Definition throwDrips {A} (e : DripsError) : result A := Throw (ThrownDrips e).

(** ** src/common/internals *)

(** [isNullOrUndefined(x)]: a nullable field is an [option]. *)
Definition isNullOrUndefined {A} (x : option A) : bool :=
  match x with
  | None => true
  | Some _ => false
  end.

Definition decimal_digit (c : ascii) : option Z :=
  let n := Z.of_nat (nat_of_ascii c) in
  if (48 <=? n) && (n <=? 57) then Some (n - 48) else None.

Definition hex_digit (c : ascii) : option Z :=
  let n := Z.of_nat (nat_of_ascii c) in
  if (48 <=? n) && (n <=? 57) then Some (n - 48)
  else if (97 <=? n) && (n <=? 102) then Some (n - 87)
  else if (65 <=? n) && (n <=? 70) then Some (n - 55)
  else None.

Fixpoint read_digits (digit : ascii → option Z) (base acc : Z) (s : string)
    : option Z :=
  match s with
  | EmptyString => Some acc
  | String c s' =>
      match digit c with
      | Some d => read_digits digit base (acc * base + d) s'
      | None => None
      end
  end.

(** One digit at least. *)
Definition read_number (digit : ascii → option Z) (base : Z) (s : string)
    : option Z :=
  match s with
  | EmptyString => None
  | _ => read_digits digit base 0 s
  end.

Definition read_magnitude (s : string) : option Z :=
  match s with
  | String "0"%char (String "x"%char rest) => read_number hex_digit 16 rest
  | _ => read_number decimal_digit 10 s
  end.

(** Modelled from the spec: [toBN] is imported from [src/common/internals],
    which is not among the sources.  The spec has user IDs travel as
    strings and be compared as big integers; [toBN] is ethers'
    [BigNumber.from] on such a string: an optional minus sign followed by
    decimal digits, or by [0x] and hexadecimal digits.  [None] stands for
    the exception it throws on a string that is no number. *)
Definition toBN (s : string) : option Z :=
  match s with
  | String "-"%char rest => Z.opp <$> read_magnitude rest
  | _ => read_magnitude s
  end.

(** [toBN] as a step of a computation. *)
Definition toBN_or_throw (s : string) : result Z :=
  match toBN s with
  | Some n => Ok n
  | None => Throw (ThrownInvalidBigNumber s)
  end.

(** ** JavaScript arrays *)

(** An array is an object in a store, reached through a reference; two
    variables may hold the same reference.  A reference names a live
    array. *)
Abbreviation ref := nat (only parsing).
Abbreviation Store A := (gmap nat (list A)) (only parsing).

(** [arr.reduce(callback, init)], over any state [Σ] the callback may
    change, [read] being the way to the elements of [arr].  The length is
    read once, before the first call; the element at index [k] is read when
    its turn comes, so it sees what earlier calls of the callback did. *)
Fixpoint reduce_from {Σ A B : Type} (read : Σ → option (list A))
    (callback : B → A → Σ → B * Σ) (k : nat) (len : nat) (acc : B) (σ : Σ)
    : B * Σ :=
  match len with
  | O => (acc, σ)
  | S len' =>
      match read σ ≫= (.!! k) with
      | Some o =>
          let '(acc', σ') := callback acc o σ in
          reduce_from read callback (S k) len' acc' σ'
      | None => reduce_from read callback (S k) len' acc σ
      end
  end.

Definition reduce_in {Σ A B : Type} (read : Σ → option (list A))
    (callback : B → A → Σ → B * Σ) (init : B) (σ : Σ) : B * Σ :=
  reduce_from read callback 0 (length (default [] (read σ))) init σ.

(** [arr.forEach(callback)] for a callback that only reads and may throw:
    the first exception ends the loop. *)
Fixpoint forEach {A : Type} (callback : A → result unit) (items : list A)
    : result unit :=
  match items with
  | [] => Ok tt
  | x :: rest => callback x ;;! forEach callback rest
  end.

Section arrays.
Context {A : Type}.

(** An array literal: a new object, at a reference no live object has. *)
Definition new_array (items : list A) (σ : Store A) : ref * Store A :=
  let r := fresh (dom σ) in (r, <[r := items]> σ).

(** [arr.push(o)] *)
Definition push (arr : ref) (o : A) (σ : Store A) : Store A :=
  alter (λ items, items ++ [o]) arr σ.

(** [arr.some(p)], for a callback that neither throws nor writes. *)
Definition some (arr : ref) (p : A → bool) (σ : Store A) : bool :=
  existsb p (default [] (σ !! arr)).

(** [arr.reduce(callback, init)] for an array of the store the callback
    works on. *)
Definition reduce {B} (callback : B → A → Store A → B * Store A)
    (arr : ref) (init : B) (σ : Store A) : B * Store A :=
  reduce_in (λ σ', σ' !! arr) callback init σ.

(** [arr.sort(compareFn)].  ECMAScript leaves the order of the comparisons
    to the engine and fixes the outcome for a consistent comparator: the
    stable sorted arrangement, [x] before [y] when [compareFn x y <= 0]
    and [x] came first.  Insertion from the right computes it.  An
    exception thrown by [compareFn] ends the sort; with two elements or
    more every element takes part in a comparison, in any engine as
    here. *)
Fixpoint insert_sorted (compareFn : A → A → result Z) (x : A)
    (sorted : list A) : result (list A) :=
  match sorted with
  | [] => Ok [x]
  | y :: rest =>
      let! c := compareFn x y in
      if c <=? 0 then Ok (x :: y :: rest)
      else let! rest' := insert_sorted compareFn x rest in Ok (y :: rest')
  end.

Fixpoint sorted_copy (compareFn : A → A → result Z) (items : list A)
    : result (list A) :=
  match items with
  | [] => Ok []
  | x :: rest =>
      let! sorted := sorted_copy compareFn rest in
      insert_sorted compareFn x sorted
  end.

(** The sort is in place and returns the reference it was called on; when
    the comparator throws, the elements stay as they were. *)
Definition sort (arr : ref) (compareFn : A → A → result Z) (σ : Store A)
    : result ref * Store A :=
  match sorted_copy compareFn (default [] (σ !! arr)) with
  | Ok items => (Ok arr, <[arr := items]> σ)
  | Throw t => (Throw t, σ)
  end.

End arrays.

(** ** contracts/AddressApp: the receiver structs *)

(** [userId] is the user ID as the caller wrote it, a string; [config] is
    the packed 256-bit configuration, an integer ([toBN] of an integer is
    that integer). *)
Module DripsReceiverStruct.
Record t : Type := mk { userId : string; config : Z }.
Global Instance eq_dec : EqDecision t.
Proof. solve_decision. Defined.
End DripsReceiverStruct.

Module SplitsReceiverStruct.
Record t : Type := mk { userId : string; weight : Z }.
Global Instance eq_dec : EqDecision t.
Proof. solve_decision. Defined.
End SplitsReceiverStruct.

(** ** src/AddressApp/AddressAppClient.ts *)

Module AddressAppClient.

(** The callback of the [reduce] in [#formatDripsReceivers]: [unique] is
    the accumulator array, [o] the element visited. *)
Definition pushUniqueDripsReceiver (unique : ref) (o : DripsReceiverStruct.t)
    (σ : Store DripsReceiverStruct.t) : ref * Store DripsReceiverStruct.t :=
  if negb (some unique
             (λ obj, String.eqb (DripsReceiverStruct.userId obj)
                                (DripsReceiverStruct.userId o)
                     && (DripsReceiverStruct.config obj
                         =? DripsReceiverStruct.config o)) σ)
  then (unique, push unique o σ)
  else (unique, σ).

(** The comparator of the [sort] in [#formatDripsReceivers]. *)
Definition compareDripsReceivers (a b : DripsReceiverStruct.t) : result Z :=
  let! a_id := toBN_or_throw (DripsReceiverStruct.userId a) in
  let! b_id := toBN_or_throw (DripsReceiverStruct.userId b) in
  Ok (if a_id >? b_id then 1
      else if a_id <? b_id then -1
      else if DripsReceiverStruct.config a >? DripsReceiverStruct.config b then 1
      else if DripsReceiverStruct.config a <? DripsReceiverStruct.config b then -1
      else 0).

Definition formatDripsReceivers (receivers : ref)
    (σ : Store DripsReceiverStruct.t)
    : result ref * Store DripsReceiverStruct.t :=
  let '(empty, σ1) := new_array [] σ in
  let '(uniqueReceivers, σ2) :=
    reduce pushUniqueDripsReceiver receivers empty σ1 in
  sort uniqueReceivers compareDripsReceivers σ2.

(** The callback of the [reduce] in [#formatSplitReceivers]. *)
Definition pushUniqueSplitsReceiver (unique : ref) (o : SplitsReceiverStruct.t)
    (σ : Store SplitsReceiverStruct.t) : ref * Store SplitsReceiverStruct.t :=
  if negb (some unique
             (λ obj, String.eqb (SplitsReceiverStruct.userId obj)
                                (SplitsReceiverStruct.userId o)
                     && (SplitsReceiverStruct.weight obj
                         =? SplitsReceiverStruct.weight o)) σ)
  then (unique, push unique o σ)
  else (unique, σ).

(** The comparator of the [sort] in [#formatSplitReceivers]. *)
Definition compareSplitsReceivers (a b : SplitsReceiverStruct.t) : result Z :=
  let! a_id := toBN_or_throw (SplitsReceiverStruct.userId a) in
  let! b_id := toBN_or_throw (SplitsReceiverStruct.userId b) in
  Ok (if a_id >? b_id then 1 else if a_id <? b_id then -1 else 0).

Definition formatSplitReceivers (receivers : ref)
    (σ : Store SplitsReceiverStruct.t)
    : result ref * Store SplitsReceiverStruct.t :=
  let '(empty, σ1) := new_array [] σ in
  let '(uniqueReceivers, σ2) :=
    reduce pushUniqueSplitsReceiver receivers empty σ1 in
  sort uniqueReceivers compareSplitsReceivers σ2.

(** *** The public methods and what they do to the world *)

(** A transaction handed to the AddressApp contract, with the receiver
    lists as they stood when it was sent. *)
Inductive ContractCall : Type :=
  | SetDripsCall (erc20TokenAddress : string)
      (currentReceivers : list DripsReceiverStruct.t) (balanceDelta : Z)
      (newReceivers : list DripsReceiverStruct.t)
  | SetSplitsCall (receivers : list SplitsReceiverStruct.t).

(** All a method can change: the arrays, the console and the calls sent to
    the contract (oldest first). *)
Record World : Type := mkWorld {
  dripsArrays : gmap nat (list DripsReceiverStruct.t);
  splitsArrays : gmap nat (list SplitsReceiverStruct.t);
  console : list (string * list DripsReceiverStruct.t);
  sent : list ContractCall
}.

(** A method body: it runs in a world and returns or throws. *)
Definition M (A : Type) : Type := World → result A * World.

Definition bind {A B} (m : M A) (k : A → M B) : M B :=
  λ w, match m w with
       | (Ok a, w') => k a w'
       | (Throw t, w') => (Throw t, w')
       end.

(** A step that looks at its arguments only. *)
Definition pure_step {A} (r : result A) : M A := λ w, (r, w).

Definition on_dripsArrays {A}
    (f : gmap nat (list DripsReceiverStruct.t)
         → result A * gmap nat (list DripsReceiverStruct.t)) : M A :=
  λ w, let '(r, σ) := f (dripsArrays w) in
       (r, mkWorld σ (splitsArrays w) (console w) (sent w)).

Definition on_splitsArrays {A}
    (f : gmap nat (list SplitsReceiverStruct.t)
         → result A * gmap nat (list SplitsReceiverStruct.t)) : M A :=
  λ w, let '(r, σ) := f (splitsArrays w) in
       (r, mkWorld (dripsArrays w) σ (console w) (sent w)).

(** The elements of an array argument, as a callee that only reads sees
    them. *)
Definition read_drips (arr : ref) : M (list DripsReceiverStruct.t) :=
  λ w, (Ok (default [] (dripsArrays w !! arr)), w).

Definition read_splits (arr : ref) : M (list SplitsReceiverStruct.t) :=
  λ w, (Ok (default [] (splitsArrays w !! arr)), w).

(** [console.log(label, arr)] *)
Definition console_log (label : string) (arr : ref) : M unit :=
  λ w, (Ok tt,
        mkWorld (dripsArrays w) (splitsArrays w)
          (console w ++ [(label, default [] (dripsArrays w !! arr))])
          (sent w)).

(** A method of [this.#addressAppContract]: the call leaves the client. *)
Definition contract_call (c : ContractCall) : M unit :=
  λ w, (Ok tt,
        mkWorld (dripsArrays w) (splitsArrays w) (console w) (sent w ++ [c])).

Declare Scope method_scope.
Delimit Scope method_scope with method.
Notation "'do' x ':=' m 'in' k" := (bind m (λ x, k))
  (at level 10, x name, m at level 100, k at level 200) : method_scope.
Notation "m ';;;' k" := (bind m (λ _, k))
  (at level 100, k at level 200, right associativity) : method_scope.

Section methods.
(** [validateAddress] comes from [src/common/internals] and the two
    receiver validators from [./addressAppValidators]; neither module is
    among the sources.  They are validators: they inspect their argument
    and return or throw. *)
Variable validateAddress : string → result unit.
Variable validateDripsReceivers : list DripsReceiverStruct.t → result unit.
Variable validateSplitsReceivers : list SplitsReceiverStruct.t → result unit.

Local Open Scope method_scope.

Definition setSplits (receivers : ref) : M unit :=
  do items := read_splits receivers in
  pure_step (validateSplitsReceivers items) ;;;
  do formatted := on_splitsArrays (formatSplitReceivers receivers) in
  do formattedItems := read_splits formatted in
  contract_call (SetSplitsCall formattedItems).

Definition setDrips (erc20TokenAddress : string)
    (currentReceivers newReceivers : ref) (balanceDelta : Z) : M unit :=
  pure_step (validateAddress erc20TokenAddress) ;;;
  do newItems := read_drips newReceivers in
  pure_step (validateDripsReceivers newItems) ;;;
  do currentItems := read_drips currentReceivers in
  pure_step (validateDripsReceivers currentItems) ;;;
  do formattedNewReceivers :=
    on_dripsArrays (formatDripsReceivers newReceivers) in
  do formattedCurrentReceivers :=
    on_dripsArrays (formatDripsReceivers currentReceivers) in
  console_log "current " formattedCurrentReceivers ;;;
  console_log "new " formattedNewReceivers ;;;
  do formattedCurrentItems := read_drips formattedCurrentReceivers in
  do formattedNewItems := read_drips formattedNewReceivers in
  contract_call
    (SetDripsCall erc20TokenAddress formattedCurrentItems balanceDelta
       formattedNewItems).

End methods.

End AddressAppClient.

(** ** src/common/validators.ts *)

Module Validators.
Import DripsErrors.

Definition MAX_DRIPS_RECEIVERS : nat := 100.
Definition MAX_SPLITS_RECEIVERS : nat := 200.

(** The validators guard against [null] and [undefined] in every field
    they read, so every such field is nullable here. *)
Module DripsReceiverConfig.
Record t : Type := mk {
  dripId : option Z;
  start : option Z;
  duration : option Z;
  amountPerSec : option Z
}.
End DripsReceiverConfig.

Module DripsReceiver.
Record t : Type := mk {
  userId : option string;
  config : option DripsReceiverConfig.t
}.
End DripsReceiver.

(** A value of a field typed [BigNumberish], [null] and [undefined]
    included, as far as [!x] tells its values apart: a string; a number or a
    bigint, by its integer value; [NaN]; or an object (a [BigNumber] or an
    array of bytes), given as the value it is. *)
Inductive BigNumberish : Type :=
  | BigNumberishNullish
  | BigNumberishString (s : string)
  | BigNumberishNumber (z : Z)
  | BigNumberishNaN
  | BigNumberishObject (object : JsValue).

(** [SplitsReceiverStruct] as the validators read it: [userId] is any
    [BigNumberish]; [weight] is a number or a bigint, or missing. *)
Module SplitsReceiver.
Record t : Type := mk {
  userId : BigNumberish;
  weight : option Z
}.
End SplitsReceiver.

(** The JavaScript value of a field or argument, as stored in an error
    context. *)
Definition js_number (x : option Z) : JsValue :=
  match x with
  | Some z => JsBigInt z
  | None => JsNullish
  end.

Definition js_string (x : option string) : JsValue :=
  match x with
  | Some s => JsString s
  | None => JsNullish
  end.

Definition js_config (c : DripsReceiverConfig.t) : JsValue :=
  JsObject [("dripId", js_number (DripsReceiverConfig.dripId c));
            ("start", js_number (DripsReceiverConfig.start c));
            ("duration", js_number (DripsReceiverConfig.duration c));
            ("amountPerSec", js_number (DripsReceiverConfig.amountPerSec c))].

Definition js_drips_receiver (r : DripsReceiver.t) : JsValue :=
  JsObject [("userId", js_string (DripsReceiver.userId r));
            ("config", from_option js_config JsNullish (DripsReceiver.config r))].

Definition js_big_numberish (x : BigNumberish) : JsValue :=
  match x with
  | BigNumberishNullish => JsNullish
  | BigNumberishString s => JsString s
  | BigNumberishNumber z => JsBigInt z
  | BigNumberishNaN => JsNaN
  | BigNumberishObject object => object
  end.

Definition js_splits_receiver (r : SplitsReceiver.t) : JsValue :=
  JsObject [("userId", js_big_numberish (SplitsReceiver.userId r));
            ("weight", js_number (SplitsReceiver.weight r))].

(** [x < 0] and [x <= 0] on a nullable number.  Every use sits behind a
    test that [x] is neither [null] nor [undefined]. *)
Definition lt_zero (x : option Z) : bool :=
  match x with
  | Some z => z <? 0
  | None => false
  end.

Definition le_zero (x : option Z) : bool :=
  match x with
  | Some z => z <=? 0
  | None => false
  end.

(** [!x] on a [BigNumberish]: [null], [undefined], the empty string, zero
    and [NaN] are falsy; every other string and number and every object is
    truthy. *)
Definition falsy (x : BigNumberish) : bool :=
  match x with
  | BigNumberishNullish => true
  | BigNumberishString s => String.eqb s EmptyString
  | BigNumberishNumber z => z =? 0
  | BigNumberishNaN => true
  | BigNumberishObject _ => false
  end.


Definition validateDripsReceiverConfig
    (dripsReceiverConfig : option DripsReceiverConfig.t) : result unit :=
  match dripsReceiverConfig with
  | None =>
      throwDrips (argumentMissingError
        "Drips receiver config validation failed: 'dripsReceiverConfig' is missing."
        "dripsReceiverConfig")
  | Some c =>
      let dripId := DripsReceiverConfig.dripId c in
      let start := DripsReceiverConfig.start c in
      let duration := DripsReceiverConfig.duration c in
      let amountPerSec := DripsReceiverConfig.amountPerSec c in
      if isNullOrUndefined dripId || lt_zero dripId then
        throwDrips (dripsReceiverConfigError
          "Drips receiver config validation failed: 'dripId' must be greater than or equal to 0"
          "start" (js_number start))
      else if isNullOrUndefined start || lt_zero start then
        throwDrips (dripsReceiverConfigError
          "Drips receiver config validation failed: 'start' must be greater than or equal to 0"
          "start" (js_number start))
      else if isNullOrUndefined duration || lt_zero duration then
        throwDrips (dripsReceiverConfigError
          "Drips receiver config validation failed: 'duration' must be greater than or equal to 0"
          "duration" (js_number duration))
      else if isNullOrUndefined amountPerSec || le_zero amountPerSec then
        throwDrips (dripsReceiverConfigError
          "Drips receiver config validation failed: 'amountPerSec' must be greater than 0."
          "amountPerSec" (js_number amountPerSec))
      else Ok tt
  end.

(** The callback of the [forEach] in [validateDripsReceivers]. *)
Definition validateDripsReceiver (receiver : DripsReceiver.t) : result unit :=
  let userId := DripsReceiver.userId receiver in
  let config := DripsReceiver.config receiver in
  if isNullOrUndefined userId then
    throwDrips (dripsReceiverError
      "Drips receivers validation failed: 'userId' is missing."
      "userId" (js_string userId))
  else if isNullOrUndefined config then
    throwDrips (dripsReceiverError
      "Drips receivers validation failed: 'config' is missing."
      "config" JsNullish)
  else validateDripsReceiverConfig config.

(** [receivers] is [None] when the argument is [null] or [undefined]. *)
Definition validateDripsReceivers (receivers : option (list DripsReceiver.t))
    : result unit :=
  match receivers with
  | None =>
      throwDrips (argumentMissingError
        "Drips receivers validation failed: 'receivers' is missing."
        "receivers")
  | Some items =>
      if (MAX_DRIPS_RECEIVERS <? length items)%nat then
        throwDrips (argumentError
          ("Drips receivers validation failed: max number of drips receivers exceeded. Max allowed "
             +:+ pretty MAX_DRIPS_RECEIVERS +:+ " but were "
             +:+ pretty (length items) +:+ ".")
          "receivers" (JsArray (js_drips_receiver <$> items)))
      else if negb (length items =? 0)%nat then
        forEach validateDripsReceiver items
      else Ok tt
  end.

(** The callback of the [forEach] in [validateSplitsReceivers]. *)
Definition validateSplitsReceiver (receiver : SplitsReceiver.t) : result unit :=
  let userId := SplitsReceiver.userId receiver in
  let weight := SplitsReceiver.weight receiver in
  if falsy userId then
    throwDrips (splitsReceiverError
      "Splits receivers validation failed: 'userId' is missing."
      "userId" (js_big_numberish userId))
  else if isNullOrUndefined weight then
    throwDrips (splitsReceiverError
      "Splits receivers validation failed: 'weight' is missing."
      "weight" (js_number weight))
  else if le_zero weight then
    throwDrips (splitsReceiverError
      "Splits receiver config validation failed: : 'weight' must be greater than 0."
      "weight" (js_number weight))
  else Ok tt.

Definition validateSplitsReceivers (receivers : option (list SplitsReceiver.t))
    : result unit :=
  match receivers with
  | None =>
      throwDrips (argumentMissingError
        "Splits receivers validation failed: 'receivers' is missing."
        "receivers")
  | Some items =>
      if (MAX_SPLITS_RECEIVERS <? length items)%nat then
        throwDrips (argumentError
          ("Splits receivers validation failed: max number of drips receivers exceeded. Max allowed "
             +:+ pretty MAX_SPLITS_RECEIVERS +:+ " but were "
             +:+ pretty (length items) +:+ ".")
          "receivers" (JsArray (js_splits_receiver <$> items)))
      else if negb (length items =? 0)%nat then
        forEach validateSplitsReceiver items
      else Ok tt
  end.

Section with_ethers.
(** [ethers.utils.isAddress] *)
Variable isAddress : string → bool.

Definition validateAddress (address : string) : result unit :=
  if negb (isAddress address) then
    throwDrips (addressError
      ("Address validation failed: address '" +:+ address
         +:+ "' is not valid.")
      address)
  else Ok tt.


End with_ethers.

End Validators.

(** ** DripsSubgraphClient *)

Module DripsSubgraphClient.
Import DripsErrors.

(** The DTO [mapDripsReceiverSeenEventToDto] builds. *)
Record DripsReceiverSeenEvent : Type := mkDripsReceiverSeenEvent {
  id : string;
  config : Z;
  senderUserId : Z;
  receiverUserId : Z;
  dripsSetEvent_id : string;
  dripsSetEvent_assetId : Z;
  blockTimestamp : Z
}.

(** An argument typed [BigNumberish], as far as [!x] tells its values
    apart. *)
Inductive BigNumberish : Type :=
  | BNNullish
  | BNString (s : string)
  | BNNumber (z : Z).

Definition falsy (x : BigNumberish) : bool :=
  match x with
  | BNNullish => true
  | BNString s => String.eqb s EmptyString
  | BNNumber z => z =? 0
  end.

(** The callback of the [reduce] in [getUsersStreamingToUser]; [unique] is
    an array of bigints, compared with [===]. *)
Definition pushUniqueSender (unique : ref) (o : DripsReceiverSeenEvent)
    (σ : Store Z) : ref * Store Z :=
  if negb (some unique (λ id, id =? senderUserId o) σ)
  then (unique, push unique (senderUserId o) σ)
  else (unique, σ).

Section client.
(** The query to the subgraph and the mapping of its answer, awaited:
    the events found, or the error the query failed with. *)
Variable getDripsReceiverSeenEventsByReceiverId :
  BigNumberish → result (list DripsReceiverSeenEvent).

(** The events array is the one the awaited call returned; the store
    holds the bigint arrays. *)
Definition getUsersStreamingToUser (receiverUserId : BigNumberish)
    (σ : Store Z) : result ref * Store Z :=
  if falsy receiverUserId then
    (throwDrips (argumentMissingError
       "Could not get streaming users: receiverUserId is missing."
       "receiverUserId"), σ)
  else
    match getDripsReceiverSeenEventsByReceiverId receiverUserId with
    | Throw t => (Throw t, σ)
    | Ok dripReceiverSeenEvents =>
        let '(empty, σ1) := new_array [] σ in
        let '(uniqueSenders, σ2) :=
          reduce_in (λ _, Some dripReceiverSeenEvents) pushUniqueSender
            empty σ1 in
        (Ok uniqueSenders, σ2)
    end.
End client.

End DripsSubgraphClient.

(** ** AccountEstimator *)

Module AccountEstimator.

(** What lies outside an estimator: the wall clock, and the account
    service with the requests it has been sent (oldest first). *)
Record Env : Type := mkEnv {
  now : Z;
  requests : list (string * Z)
}.

Section estimator.
Variables Account AccountEstimate SqueezedDripsEvent Cycle : Type.

(** The answer of [AccountService.fetchAccount(userId, chainId)], awaited. *)
Variable fetchAccount : string → Z → Env → result Account.
(** [Utils.Cycle.getInfo(chainId)], which reads the clock. *)
Variable getInfo : Z → Z → result Cycle.
(** [IEstimatorEngine.estimateAccount], a function of its arguments. *)
Variable estimateAccount :
  option Account → Cycle → option (list SqueezedDripsEvent)
  → result AccountEstimate.

(** The private fields; [account] is unset until the first refresh. *)
Record t : Type := mk {
  userId : string;
  chainId : Z;
  account : option Account
}.

Definition refreshAccount (this : t) (env : Env)
    : result unit * t * Env :=
  let env' := mkEnv (now env) (requests env ++ [(userId this, chainId this)]) in
  match fetchAccount (userId this) (chainId this) env with
  | Ok fetched => (Ok tt, mk (userId this) (chainId this) (Some fetched), env')
  | Throw e => (Throw e, this, env')
  end.

Definition estimate (this : t)
    (excludingSqueezes : option (list SqueezedDripsEvent)) (env : Env)
    : result AccountEstimate * t * Env :=
  (let! currentCycle := getInfo (chainId this) (now env) in
   estimateAccount (account this) currentCycle excludingSqueezes,
   this, env).

(** [n] calls of [estimate] in a row, the results dropped. *)
Fixpoint estimate_times (n : nat) (this : t)
    (excludingSqueezes : option (list SqueezedDripsEvent)) (env : Env)
    : t * Env :=
  match n with
  | O => (this, env)
  | S n' =>
      let '(_, this', env') := estimate this excludingSqueezes env in
      estimate_times n' this' excludingSqueezes env'
  end.

End estimator.

End AccountEstimator.

(** ** The notions the properties are stated with *)

(** Each value once, at the place of its first occurrence. *)
Fixpoint first_occurrences {A} `{EqDecision A} (l : list A) : list A :=
  match l with
  | [] => []
  | x :: l' => x :: filter (λ y, y ≠ x) (first_occurrences l')
  end.

(** The position of the first occurrence of [x] in [l] ([length l] when
    there is none). *)
Fixpoint first_index {A} `{EqDecision A} (x : A) (l : list A) : nat :=
  match l with
  | [] => O
  | y :: l' => if decide (y = x) then O else S (first_index x l')
  end.

(** The ordering key of a drips receiver: the user ID as a number, then the
    packed configuration.  Zero stands in for a user ID that is no number;
    the comparator throws on such a string and never orders it. *)
Definition drips_key (r : DripsReceiverStruct.t) : Z * Z :=
  (default 0 (toBN (DripsReceiverStruct.userId r)), DripsReceiverStruct.config r).

(** The ordering key of a splits receiver: the user ID as a number. *)
Definition splits_key (r : SplitsReceiverStruct.t) : Z :=
  default 0 (toBN (SplitsReceiverStruct.userId r)).

(** Ascending order on pairs of integers, first component first. *)
Definition pair_le (p q : Z * Z) : Prop :=
  p.1 < q.1 ∨ (p.1 = q.1 ∧ p.2 ≤ q.2).

(** A user ID that [toBN] can read. *)
Definition readable (s : string) : Prop := is_Some (toBN s).

(** What the callbacks of the three [reduce] calls do to the elements of the
    accumulator: [f o] is appended unless an element the same as it is
    there. *)
Definition keep_unique {A X} (f : A → X) (same : X → X → bool)
    (acc : list X) (o : A) : list X :=
  if existsb (λ obj, same obj (f o)) acc then acc else acc ++ [f o].

(** [#formatDripsReceivers] and [#formatSplitReceivers] as functions from
    the elements of the argument to the elements of the returned array: the
    contract [canonicalizeDripsReceivers] and [canonicalizeSplitsReceivers]
    of the specification.  The argument is the one array of the store. *)
Definition canonicalizeDripsReceivers (receivers : list DripsReceiverStruct.t)
    : result (list DripsReceiverStruct.t) :=
  let '(returned, σ) :=
    AddressAppClient.formatDripsReceivers 0%nat {[ 0%nat := receivers ]} in
  let! sortedReceivers := returned in
  Ok (default [] (σ !! sortedReceivers)).

Definition canonicalizeSplitsReceivers (receivers : list SplitsReceiverStruct.t)
    : result (list SplitsReceiverStruct.t) :=
  let '(returned, σ) :=
    AddressAppClient.formatSplitReceivers 0%nat {[ 0%nat := receivers ]} in
  let! sortedReceivers := returned in
  Ok (default [] (σ !! sortedReceivers)).

(** Every user ID number of the list is spelled in one way only: two
    entries whose user IDs read as the same number carry the same string. *)
Definition one_spelling (l : list DripsReceiverStruct.t) : Prop :=
  ∀ a b, a ∈ l → b ∈ l →
    toBN (DripsReceiverStruct.userId a) = toBN (DripsReceiverStruct.userId b) →
    DripsReceiverStruct.userId a = DripsReceiverStruct.userId b.

(** A computation raises an SDK error of kind [c]. *)
Definition raises {A} (c : DripsErrorCode) (r : result A) : Prop :=
  ∃ e, r = Throw (ThrownDrips e) ∧ code e = c.

(** ** src/common/validators.ts: the validators of whole inputs *)

Module InputValidators.
Import DripsErrors.

(** [UserMetadataStruct]: a key and a value, each of which the validator
    tests for [null] and [undefined]. *)
Module UserMetadataStruct.
Record t : Type := mk { key : option string; value : option string }.
End UserMetadataStruct.

(** The callback of the [forEach] in [validateEmitUserMetadataInput]. *)
Definition validateUserMetadata (meta : UserMetadataStruct.t) : result unit :=
  let key := UserMetadataStruct.key meta in
  let value := UserMetadataStruct.value meta in
  if isNullOrUndefined key then
    throwDrips (argumentError
      "Invalid user metadata: 'key' is missing."
      "key" (Validators.js_string key))
  else if isNullOrUndefined value then
    throwDrips (argumentError
      "Invalid user metadata: 'value' is missing."
      "value" (Validators.js_string value))
  else Ok tt.

Definition validateEmitUserMetadataInput
    (metadata : option (list UserMetadataStruct.t)) : result unit :=
  match metadata with
  | None =>
      throwDrips (argumentError
        "Invalid user metadata: 'metadata' is missing."
        "metadata" JsNullish)
  | Some items => forEach validateUserMetadata items
  end.

Section with_ethers.
(** [ethers.utils.isAddress] *)
Variable isAddress : string → bool.


End with_ethers.

End InputValidators.

(** ** src/common/validators.ts: the validator of a client's provider *)

Module ClientValidators.
Import DripsErrors.





End ClientValidators.

(** ** ImmutableSplitsDriverClient *)

Module ImmutableSplitsDriverClient.
Import DripsErrors.

(** [UserMetadataStruct] of [contracts/ImmutableSplitsDriver]. *)
Record UserMetadata : Type := mkUserMetadata { key : string; value : string }.

(** A transaction handed to the ImmutableSplitsDriver contract. *)
Inductive ContractCall : Type :=
  | CreateSplitsCall (receivers : option (list SplitsReceiverStruct.t))
      (metadata : list UserMetadata).

Section methods.
(** [validateSplitsReceivers] comes from [src/common/internals], which is
    not among the sources: a validator, it inspects its argument and returns
    or throws. *)
Variable validateSplitsReceivers :
  option (list SplitsReceiverStruct.t) → result unit.

(** [sent] holds the calls handed to the contract, oldest first. *)
Definition createSplits (receivers : option (list SplitsReceiverStruct.t))
    (metadata : option (list UserMetadata)) (sent : list ContractCall)
    : result unit * list ContractCall :=
  match validateSplitsReceivers receivers with
  | Throw t => (Throw t, sent)
  | Ok _ =>
      match metadata with
      | None =>
          (throwDrips (argumentMissingError
             "Could not create immutable splits: 'receivers' is missing."
             "receivers"), sent)
      | Some items => (Ok tt, sent ++ [CreateSplitsCall receivers items])
      end
  end.

End methods.

End ImmutableSplitsDriverClient.

(** ** AccountEstimator: creation and use *)

Module AccountEstimatorLifecycle.
Import AccountEstimator.

Section lifecycle.
Variables Account AccountEstimate SqueezedDripsEvent Cycle : Type.

(** What a dependency factory returns: the account service and the
    estimator engine, each as the one method the estimator calls. *)
Record Dependencies : Type := mkDependencies {
  accountService_fetchAccount : string → Z → Env → result Account;
  estimatorEngine_estimateAccount :
    option Account → Cycle → option (list SqueezedDripsEvent)
    → result AccountEstimate
}.

(** An estimator object: its data fields and its two private services. *)
Record Estimator : Type := mkEstimator {
  fields : t Account;
  services : Dependencies
}.

(** [DripsErrors.clientInitializationError], which
    [src/common/DripsError.ts] does not declare: some SDK error built from
    the message. *)
Variable clientInitializationError : string → DripsError.
(** The [dependencyFactory] argument of [create]. *)
Variable dependencyFactory : Z → result Dependencies.
(** [Utils.Cycle.getInfo(chainId)], which reads the clock. *)
Variable getInfo : Z → Z → result Cycle.

Definition refreshAccount (this : Estimator) (env : Env)
    : result unit * Estimator * Env :=
  let '(returned, fields', env') :=
    AccountEstimator.refreshAccount Account
      (accountService_fetchAccount (services this)) (fields this) env in
  (returned, mkEstimator fields' (services this), env').

Definition estimate (this : Estimator)
    (excludingSqueezes : option (list SqueezedDripsEvent)) (env : Env)
    : result AccountEstimate * Estimator * Env :=
  let '(returned, fields', env') :=
    AccountEstimator.estimate Account AccountEstimate SqueezedDripsEvent Cycle
      getInfo (estimatorEngine_estimateAccount (services this)) (fields this)
      excludingSqueezes env in
  (returned, mkEstimator fields' (services this), env').

(** [AccountEstimator.create]; [!userId] on a string and [!chainId] on a
    number. *)
Definition create (userId : string) (chainId : Z) (env : Env)
    : result Estimator * Env :=
  if String.eqb userId EmptyString then
    (throwDrips (clientInitializationError
       "Could not create 'Estimator': user ID is required."), env)
  else if chainId =? 0 then
    (throwDrips (clientInitializationError
       "Could not create 'Estimator': chain ID is required."), env)
  else
    match dependencyFactory chainId with
    | Throw e => (Throw e, env)
    | Ok dependencies =>
        let estimator :=
          mkEstimator (mk Account userId chainId None) dependencies in
        match refreshAccount estimator env with
        | (Ok _, estimator', env') => (Ok estimator', env')
        | (Throw e, _, env') => (Throw e, env')
        end
    end.

(** A call a holder of an estimator can make. *)
Inductive Call : Type :=
  | CallRefreshAccount
  | CallEstimate (excludingSqueezes : option (list SqueezedDripsEvent)).

(** The calls of [calls] made one after the other on an estimator, whatever
    each returns or throws. *)
Fixpoint run (calls : list Call) (this : Estimator) (env : Env)
    : Estimator * Env :=
  match calls with
  | [] => (this, env)
  | CallRefreshAccount :: rest =>
      let '(_, this', env') := refreshAccount this env in
      run rest this' env'
  | CallEstimate excludingSqueezes :: rest =>
      let '(_, this', env') := estimate this excludingSqueezes env in
      run rest this' env'
  end.

(** How many of the calls are refreshes. *)
Fixpoint refreshes (calls : list Call) : nat :=
  match calls with
  | [] => 0
  | CallRefreshAccount :: rest => S (refreshes rest)
  | CallEstimate _ :: rest => refreshes rest
  end.

End lifecycle.

Arguments accountService_fetchAccount {Account AccountEstimate
  SqueezedDripsEvent Cycle} _ _ _ _.
Arguments estimatorEngine_estimateAccount {Account AccountEstimate
  SqueezedDripsEvent Cycle} _ _ _ _.
Arguments mkEstimator {Account AccountEstimate SqueezedDripsEvent Cycle} _ _.
Arguments fields {Account AccountEstimate SqueezedDripsEvent Cycle} _.
Arguments services {Account AccountEstimate SqueezedDripsEvent Cycle} _.
Arguments CallRefreshAccount {SqueezedDripsEvent}.
Arguments CallEstimate {SqueezedDripsEvent} _.
Arguments refreshes {SqueezedDripsEvent} _.

End AccountEstimatorLifecycle.

(** ** Further notions *)

(** Strictly ascending order on pairs of integers, first component first. *)
Definition pair_lt (p q : Z * Z) : Prop :=
  p.1 < q.1 ∨ (p.1 = q.1 ∧ p.2 < q.2).

(** A drips receiver config whose four fields are there and in range. *)
Definition config_in_range (c : Validators.DripsReceiverConfig.t) : Prop :=
  ∃ dripId start duration amountPerSec,
    c = Validators.DripsReceiverConfig.mk (Some dripId) (Some start)
          (Some duration) (Some amountPerSec)
    ∧ 0 ≤ dripId ∧ 0 ≤ start ∧ 0 ≤ duration ∧ 0 < amountPerSec.

(** A drips receiver with a user ID (any string) and a config in range. *)
Definition drips_receiver_in_range (r : Validators.DripsReceiver.t) : Prop :=
  is_Some (Validators.DripsReceiver.userId r)
  ∧ ∃ c, Validators.DripsReceiver.config r = Some c ∧ config_in_range c.

(** A user ID that JavaScript takes for true: a string that is not empty,
    a number or bigint that is not zero, or an object. *)
Definition truthy_user_id (userId : Validators.BigNumberish) : Prop :=
  match userId with
  | Validators.BigNumberishNullish => False
  | Validators.BigNumberishString s => s ≠ EmptyString
  | Validators.BigNumberishNumber z => z ≠ 0
  | Validators.BigNumberishNaN => False
  | Validators.BigNumberishObject _ => True
  end.

(** A splits receiver with a truthy user ID and a positive weight. *)
Definition splits_receiver_in_range (r : Validators.SplitsReceiver.t) : Prop :=
  truthy_user_id (Validators.SplitsReceiver.userId r)
  ∧ ∃ w, Validators.SplitsReceiver.weight r = Some w ∧ 0 < w.

(** * Properties *)

(** ** First occurrences *)

Section first_occurrence_facts.
Context {A : Type} `{EqDecision A}.
Implicit Types (l : list A) (x y : A).

Lemma filter_all (P : A → Prop) `{∀ x, Decision (P x)} l :
  Forall P l → filter P l = l.
Proof.
  induction 1 as [|y l Hy _ IH]; [done|].
  by rewrite filter_cons_True, IH.
Qed.

Lemma elem_of_first_occurrences l x : x ∈ first_occurrences l ↔ x ∈ l.
Proof.
  induction l as [|y l IH]; simpl; [done|].
  rewrite !elem_of_cons, list_elem_of_filter, IH.
  destruct (decide (x = y)); tauto.
Qed.

Lemma NoDup_first_occurrences l : NoDup (first_occurrences l).
Proof.
  induction l as [|y l IH]; simpl; [constructor|].
  constructor; [|by apply NoDup_filter].
  rewrite list_elem_of_filter. tauto.
Qed.

Lemma first_occurrences_NoDup l : NoDup l → first_occurrences l = l.
Proof.
  induction 1 as [|y l Hy _ IH]; simpl; [done|].
  rewrite IH. f_equal. apply filter_all.
  apply Forall_forall. intros z Hz ->. done.
Qed.

Lemma first_occurrences_idemp l :
  first_occurrences (first_occurrences l) = first_occurrences l.
Proof. apply first_occurrences_NoDup, NoDup_first_occurrences. Qed.

Lemma first_index_lt l x : x ∈ l → (first_index x l < length l)%nat.
Proof.
  induction l as [|y l IH]; simpl; [by rewrite elem_of_nil|].
  rewrite elem_of_cons. destruct (decide (y = x)); [lia|].
  intros [->|Hx]; [done|]. specialize (IH Hx). lia.
Qed.

Lemma lookup_first_index l x : x ∈ l → l !! first_index x l = Some x.
Proof.
  induction l as [|y l IH]; simpl; [by rewrite elem_of_nil|].
  rewrite elem_of_cons. destruct (decide (y = x)) as [->|]; [done|].
  intros [->|Hx]; [done|]. by apply IH.
Qed.

Lemma first_index_least l x i : l !! i = Some x → (first_index x l ≤ i)%nat.
Proof.
  revert i. induction l as [|y l IH]; intros i; simpl; [done|].
  destruct (decide (y = x)); [lia|].
  destruct i as [|i]; simpl; [naive_solver|].
  intros Hi. specialize (IH _ Hi). lia.
Qed.

(** The values come in the order of their first occurrences. *)
Lemma first_occurrences_in_order l :
  StronglySorted lt ((λ x, first_index x l) <$> first_occurrences l).
Proof.
  induction l as [|y l IH]; simpl; [constructor|].
  rewrite decide_True by done.
  constructor.
  - assert (Hsub : ∀ k : list A,
      StronglySorted lt ((λ x, first_index x l) <$> k) →
      StronglySorted lt
        ((λ x, if decide (y = x) then O else S (first_index x l))
           <$> filter (λ z, z ≠ y) k)).
    { induction k as [|z k IHk]; simpl; [constructor|].
      rewrite StronglySorted_cons. intros [Hz Hk].
      rewrite filter_cons. destruct (decide (z ≠ y)) as [Hzy|]; [|by auto].
      simpl. rewrite decide_False by done.
      constructor; [by auto|].
      apply Forall_fmap, Forall_forall. intros w Hw.
      apply list_elem_of_filter in Hw as [Hwy Hw]. simpl.
      rewrite decide_False by done.
      rewrite Forall_fmap, Forall_forall in Hz.
      specialize (Hz w Hw). simpl in Hz. lia. }
    by apply Hsub.
  - apply Forall_fmap, Forall_forall. intros w Hw.
    apply list_elem_of_filter in Hw as [Hwy Hw]. simpl.
    rewrite decide_False by done. lia.
Qed.

End first_occurrence_facts.

(** ** The accumulator of the [reduce] calls *)

Section keep_unique_facts.
Context {A X : Type} `{EqDecision X} (f : A → X) (same : X → X → bool).
Hypothesis same_eq : ∀ x y, same x y = true ↔ x = y.

Lemma existsb_same acc x :
  existsb (λ obj, same obj x) acc = bool_decide (x ∈ acc).
Proof.
  apply eq_true_iff_eq. rewrite existsb_exists, bool_decide_eq_true.
  split.
  - intros (y & Hy & Hsame). apply same_eq in Hsame as ->.
    by apply list_elem_of_In.
  - intros Hx. exists x. split; [by apply list_elem_of_In|by apply same_eq].
Qed.

Lemma fold_keep_unique l acc :
  fold_left (keep_unique f same) l acc
  = acc ++ filter (λ y, y ∉ acc) (first_occurrences (f <$> l)).
Proof.
  revert acc. induction l as [|o l IH]; intros acc; simpl.
  { by rewrite app_nil_r. }
  rewrite IH. unfold keep_unique. rewrite existsb_same.
  rewrite filter_cons. case_bool_decide as Hin.
  - destruct (decide (f o ∉ acc)) as [Hn|_]; [done|]. f_equal.
    rewrite list_filter_filter. apply list_filter_iff.
    intros y. split; [|tauto]. intros Hy. split; [done|].
    intros ->. done.
  - destruct (decide (f o ∉ acc)) as [_|Hn]; [|done].
    rewrite <-app_assoc. simpl. do 2 f_equal.
    rewrite list_filter_filter. apply list_filter_iff.
    intros y. rewrite not_elem_of_app, list_elem_of_singleton. tauto.
Qed.

Lemma fold_keep_unique_nil l :
  fold_left (keep_unique f same) l [] = first_occurrences (f <$> l).
Proof.
  rewrite fold_keep_unique. simpl. apply filter_all.
  apply Forall_forall. intros y _. apply not_elem_of_nil.
Qed.

End keep_unique_facts.

(** ** [reduce] with a callback that pushes what is not there yet *)

Section reduce_facts.
Context {A X : Type} (f : A → X) (same : X → X → bool).
Context (read : gmap nat (list X) → option (list A)).
Context (callback : nat → A → gmap nat (list X) → nat * gmap nat (list X)).
Context (u : nat).
Hypothesis callback_eq : ∀ unique o σ,
  callback unique o σ
  = if negb (some unique (λ obj, same obj (f o)) σ)
    then (unique, push unique (f o) σ)
    else (unique, σ).
(** Pushing on the accumulator does not change the array read. *)
Hypothesis read_push : ∀ x σ, read (push u x σ) = read σ.

Lemma reduce_from_keep_unique l len k acc σ :
  read σ = Some l →
  σ !! u = Some acc →
  (k + len = length l)%nat →
  reduce_from read callback k len u σ
  = (u, <[u := fold_left (keep_unique f same) (drop k l) acc]> σ).
Proof.
  revert k acc σ. induction len as [|len IH]; intros k acc σ Hread Hu Hlen.
  { simpl. rewrite drop_ge by lia. simpl. by rewrite insert_id. }
  simpl. rewrite Hread. simpl.
  destruct (lookup_lt_is_Some_2 l k) as [o Ho]; [lia|].
  rewrite Ho, (drop_S _ _ _ Ho), callback_eq. simpl.
  unfold some, keep_unique at 2. rewrite Hu. simpl.
  destruct (existsb _ acc); simpl.
  - apply IH; [done|done|lia].
  - rewrite (IH (S k) (acc ++ [f o])).
    + unfold push. by rewrite insert_alter_eq.
    + by rewrite read_push.
    + unfold push. by rewrite lookup_alter_eq, Hu.
    + lia.
Qed.

Lemma reduce_in_keep_unique l σ :
  read σ = Some l →
  σ !! u = Some [] →
  reduce_in read callback u σ
  = (u, <[u := fold_left (keep_unique f same) l []]> σ).
Proof.
  intros Hread Hu. unfold reduce_in. rewrite Hread. simpl.
  by rewrite (reduce_from_keep_unique l _ 0%nat [] σ).
Qed.

End reduce_facts.

(** ** [sort] with a comparator that reads an ordering key *)

Section sort_facts.
Context {A K : Type} `{EqDecision K}.
Context (compareFn : A → A → result Z) (ok : A → Prop) (key : A → K).
Context (R : relation K) `{!Total R, !Transitive R, !AntiSymm (=) R}.
(** The comparator returns when both arguments can be read, and then says
    how their keys compare; it throws otherwise. *)
Hypothesis compare_spec : ∀ x y,
  match compareFn x y with
  | Ok c => ok x ∧ ok y ∧ (c ≤ 0 ↔ R (key x) (key y))
  | Throw _ => ¬ (ok x ∧ ok y)
  end.

Local Abbreviation le := (λ x y, R (key x) (key y)).

Lemma R_refl k : R k k.
Proof. by destruct (total R k k). Qed.

Lemma insert_sorted_returns x s :
  ok x → Forall ok s → ∃ s', insert_sorted compareFn x s = Ok s'.
Proof.
  intros Hx. induction 1 as [|y s Hy _ IH]; simpl; [by eauto|].
  pose proof (compare_spec x y) as Hc.
  destruct (compareFn x y) as [c|t]; [|tauto]. simpl.
  destruct (c <=? 0); [by eauto|].
  destruct IH as [s' ->]. simpl. by eauto.
Qed.

Lemma insert_sorted_perm x s s' :
  insert_sorted compareFn x s = Ok s' → s' ≡ₚ x :: s.
Proof.
  revert s'. induction s as [|y s IH]; intros s'; simpl.
  { by intros [= <-]. }
  destruct (compareFn x y) as [c|t]; simpl; [|done].
  destruct (c <=? 0); [by intros [= <-]|].
  destruct (insert_sorted compareFn x s) as [r|t]; simpl; [|done].
  intros [= <-]. rewrite (IH r eq_refl). apply Permutation_swap.
Qed.

Lemma insert_sorted_sorted x s s' :
  insert_sorted compareFn x s = Ok s' →
  StronglySorted le s → StronglySorted le s'.
Proof.
  revert s'. induction s as [|y s IH]; intros s'; simpl.
  { intros [= <-] _. repeat constructor. }
  pose proof (compare_spec x y) as Hc.
  destruct (compareFn x y) as [c|t]; simpl; [|done].
  destruct Hc as (_ & _ & Hc).
  destruct (Z.leb_spec c 0) as [Hle|Hgt].
  - intros [= <-] Hs. constructor; [done|].
    apply StronglySorted_cons in Hs as [Hy _].
    constructor; [by apply Hc|].
    eapply Forall_impl; [exact Hy|]. simpl. intros z Hz.
    etrans; [by apply Hc|done].
  - destruct (insert_sorted compareFn x s) as [r|t] eqn:Hr; simpl; [|done].
    intros [= <-] Hs. apply StronglySorted_cons in Hs as [Hy Hs].
    constructor; [by apply IH|].
    rewrite (insert_sorted_perm _ _ _ Hr). constructor; [|done].
    destruct (total R (key x) (key y)) as [Hxy|Hyx]; [|done].
    apply Hc in Hxy. lia.
Qed.

(** Stability: the elements that share a key keep their order. *)
Lemma insert_sorted_stable x s s' k :
  insert_sorted compareFn x s = Ok s' →
  filter (λ y, key y = k) s' = filter (λ y, key y = k) (x :: s).
Proof.
  revert s'. induction s as [|y s IH]; intros s'; simpl.
  { by intros [= <-]. }
  pose proof (compare_spec x y) as Hc.
  destruct (compareFn x y) as [c|t]; simpl; [|done].
  destruct Hc as (_ & _ & Hc).
  destruct (Z.leb_spec c 0) as [Hle|Hgt]; [by intros [= <-]|].
  destruct (insert_sorted compareFn x s) as [r|t]; simpl; [|done].
  intros [= <-]. rewrite (filter_cons _ y r), (IH r eq_refl).
  rewrite !filter_cons.
  destruct (decide (key y = k)) as [Hyk|]; [|done].
  destruct (decide (key x = k)) as [Hxk|]; [|done].
  exfalso. assert (R (key x) (key y)) as Hxy.
  { rewrite Hxk, Hyk. apply R_refl. }
  apply Hc in Hxy. lia.
Qed.

(** Insertion in front of a sorted list that starts no lower. *)
Lemma insert_sorted_front x s :
  (length s ≠ 0%nat → ok x) → Forall ok s → HdRel le x s →
  insert_sorted compareFn x s = Ok (x :: s).
Proof.
  intros Hx Hs Hhd. destruct Hhd as [|y s Hxy]; simpl; [done|].
  pose proof (compare_spec x y) as Hc.
  apply Forall_cons in Hs as [Hy _].
  destruct (compareFn x y) as [c|t]; simpl.
  - destruct Hc as (_ & _ & Hc). apply Hc in Hxy.
    by destruct (Z.leb_spec c 0); [|lia].
  - destruct Hc. split; [by apply Hx|done].
Qed.

Lemma sorted_copy_returns l :
  Forall ok l → ∃ s, sorted_copy compareFn l = Ok s.
Proof.
  induction 1 as [|x l Hx Hl IH]; simpl; [by eauto|].
  destruct IH as [s Hs]. rewrite Hs. simpl.
  assert (s ≡ₚ l) as Hperm.
  { clear -Hs compare_spec. revert s Hs.
    induction l as [|y l IH]; intros s; simpl; [by intros [= <-]|].
    destruct (sorted_copy compareFn l) as [r|t]; simpl; [|done].
    intros Hins. apply insert_sorted_perm in Hins. rewrite Hins.
    by rewrite (IH r eq_refl). }
  apply insert_sorted_returns; [done|]. by rewrite Hperm.
Qed.

Lemma sorted_copy_perm l s : sorted_copy compareFn l = Ok s → s ≡ₚ l.
Proof.
  revert s. induction l as [|y l IH]; intros s; simpl; [by intros [= <-]|].
  destruct (sorted_copy compareFn l) as [r|t]; simpl; [|done].
  intros Hins. apply insert_sorted_perm in Hins. rewrite Hins.
  by rewrite (IH r eq_refl).
Qed.

Lemma sorted_copy_sorted l s :
  sorted_copy compareFn l = Ok s → StronglySorted le s.
Proof.
  revert s. induction l as [|y l IH]; intros s; simpl.
  { intros [= <-]. constructor. }
  destruct (sorted_copy compareFn l) as [r|t]; simpl; [|done].
  intros Hins. eapply insert_sorted_sorted; [done|]. by apply IH.
Qed.

Lemma sorted_copy_stable l s k :
  sorted_copy compareFn l = Ok s →
  filter (λ y, key y = k) s = filter (λ y, key y = k) l.
Proof.
  revert s. induction l as [|y l IH]; intros s; simpl; [by intros [= <-]|].
  destruct (sorted_copy compareFn l) as [r|t]; simpl; [|done].
  intros Hins. rewrite (insert_sorted_stable _ _ _ _ Hins).
  by rewrite !filter_cons, (IH r eq_refl).
Qed.

(** Whoever is sorted together with another element is compared, hence
    readable. *)
Lemma sorted_copy_all_ok l s :
  sorted_copy compareFn l = Ok s → (2 ≤ length l)%nat → Forall ok l.
Proof.
  revert s. induction l as [|x l IH]; intros s; simpl; [lia|].
  destruct (sorted_copy compareFn l) as [r|t] eqn:Hr; simpl; [|done].
  intros Hins Hlen.
  pose proof (sorted_copy_perm _ _ Hr) as Hperm.
  destruct r as [|y r].
  { apply Permutation_nil_l in Hperm. subst l. simpl in Hlen. lia. }
  simpl in Hins. pose proof (compare_spec x y) as Hc.
  destruct (compareFn x y) as [c|t]; simpl in Hins; [|done].
  destruct Hc as (Hx & Hy & _). constructor; [done|].
  destruct (decide (2 ≤ length l)%nat) as [Hl|Hl]; [by eapply IH|].
  destruct l as [|z [|z' l]]; simpl in *; [lia| |lia].
  apply Permutation_length in Hperm as Hlen'. destruct r; [|done].
  apply Permutation_singleton_l in Hperm. simplify_eq. by constructor.
Qed.

(** A sorted array is left as it is. *)
Lemma sorted_copy_fixed l :
  ((2 ≤ length l)%nat → Forall ok l) → StronglySorted le l →
  sorted_copy compareFn l = Ok l.
Proof.
  induction l as [|x l IH]; intros Hok Hs; [done|].
  apply StronglySorted_cons in Hs as [Hx Hs].
  destruct l as [|y l]; [done|].
  assert (Forall ok (x :: y :: l)) as Hall by (apply Hok; simpl; lia).
  apply Forall_cons in Hall as [Hokx Hall].
  change (sorted_copy compareFn (x :: y :: l))
    with (rbind (sorted_copy compareFn (y :: l))
            (λ sorted, insert_sorted compareFn x sorted)).
  rewrite IH; [|by intros _|done]. cbv [rbind].
  apply insert_sorted_front; [done|done|].
  apply Forall_cons in Hx as [Hxy _]. by constructor.
Qed.

Lemma sorted_copy_idemp l s :
  sorted_copy compareFn l = Ok s → sorted_copy compareFn s = Ok s.
Proof.
  intros Hs. apply sorted_copy_fixed; [|by eapply sorted_copy_sorted].
  intros Hlen. pose proof (sorted_copy_perm _ _ Hs) as Hperm.
  rewrite Hperm. eapply sorted_copy_all_ok; [done|].
  by rewrite <-(Permutation_length Hperm).
Qed.

(** Nothing is compared when there is at most one element. *)
Lemma sorted_copy_short l :
  (length l ≤ 1)%nat → sorted_copy compareFn l = Ok l.
Proof. destruct l as [|x [|y l]]; simpl; [done|done|lia]. Qed.

(** Whether the sort returns or throws does not depend on the order of the
    elements. *)
Lemma sorted_copy_returns_perm l1 l2 s1 :
  l1 ≡ₚ l2 → sorted_copy compareFn l1 = Ok s1 →
  ∃ s2, sorted_copy compareFn l2 = Ok s2.
Proof.
  intros Hperm Hs1. destruct (decide (2 ≤ length l1)%nat) as [Hlen|Hlen].
  - apply sorted_copy_returns. rewrite <-Hperm.
    by eapply sorted_copy_all_ok.
  - exists l2. apply sorted_copy_short.
    rewrite <-(Permutation_length Hperm). lia.
Qed.

End sort_facts.

(** ** What the two formatters compute *)

Global Instance pair_le_total : Total pair_le.
Proof. intros [a b] [c d]. unfold pair_le. simpl. lia. Qed.

Global Instance pair_le_trans : Transitive pair_le.
Proof. intros [a b] [c d] [e f]. unfold pair_le. simpl. lia. Qed.

Global Instance pair_le_antisymm : AntiSymm (=) pair_le.
Proof.
  intros [a b] [c d]. unfold pair_le. simpl. intros H1 H2.
  f_equal; lia.
Qed.

Lemma same_drips_receiver (a b : DripsReceiverStruct.t) :
  String.eqb (DripsReceiverStruct.userId a) (DripsReceiverStruct.userId b)
  && (DripsReceiverStruct.config a =? DripsReceiverStruct.config b) = true
  ↔ a = b.
Proof.
  rewrite andb_true_iff, String.eqb_eq, Z.eqb_eq.
  destruct a, b; simpl. split; [by intros [-> ->]|by intros [= -> ->]].
Qed.

Lemma same_splits_receiver (a b : SplitsReceiverStruct.t) :
  String.eqb (SplitsReceiverStruct.userId a) (SplitsReceiverStruct.userId b)
  && (SplitsReceiverStruct.weight a =? SplitsReceiverStruct.weight b) = true
  ↔ a = b.
Proof.
  rewrite andb_true_iff, String.eqb_eq, Z.eqb_eq.
  destruct a, b; simpl. split; [by intros [-> ->]|by intros [= -> ->]].
Qed.

Lemma compareDripsReceivers_spec (x y : DripsReceiverStruct.t) :
  match AddressAppClient.compareDripsReceivers x y with
  | Ok c =>
      readable (DripsReceiverStruct.userId x)
      ∧ readable (DripsReceiverStruct.userId y)
      ∧ (c ≤ 0 ↔ pair_le (drips_key x) (drips_key y))
  | Throw _ =>
      ¬ (readable (DripsReceiverStruct.userId x)
         ∧ readable (DripsReceiverStruct.userId y))
  end.
Proof.
  unfold AddressAppClient.compareDripsReceivers, toBN_or_throw, readable,
    drips_key, pair_le.
  destruct (toBN (DripsReceiverStruct.userId x)) as [a|]; simpl.
  - destruct (toBN (DripsReceiverStruct.userId y)) as [b|]; simpl.
    + split; [by eauto|]. split; [by eauto|].
      rewrite !Z.gtb_ltb.
      repeat match goal with
             | |- context [?p <? ?q] => destruct (Z.ltb_spec p q)
             end; lia.
    + intros [_ [? ?]]. done.
  - intros [[? ?] _]. done.
Qed.

Lemma compareSplitsReceivers_spec (x y : SplitsReceiverStruct.t) :
  match AddressAppClient.compareSplitsReceivers x y with
  | Ok c =>
      readable (SplitsReceiverStruct.userId x)
      ∧ readable (SplitsReceiverStruct.userId y)
      ∧ (c ≤ 0 ↔ splits_key x ≤ splits_key y)
  | Throw _ =>
      ¬ (readable (SplitsReceiverStruct.userId x)
         ∧ readable (SplitsReceiverStruct.userId y))
  end.
Proof.
  unfold AddressAppClient.compareSplitsReceivers, toBN_or_throw, readable,
    splits_key.
  destruct (toBN (SplitsReceiverStruct.userId x)) as [a|]; simpl.
  - destruct (toBN (SplitsReceiverStruct.userId y)) as [b|]; simpl.
    + split; [by eauto|]. split; [by eauto|].
      rewrite !Z.gtb_ltb.
      repeat match goal with
             | |- context [?p <? ?q] => destruct (Z.ltb_spec p q)
             end; lia.
    + intros [_ [? ?]]. done.
  - intros [[? ?] _]. done.
Qed.

(** A formatter, run: a new array is allocated, filled with the first
    occurrences and sorted in place; no other array changes. *)
Lemma format_run {A} `{EqDecision A}
    (callback : nat → A → gmap nat (list A) → nat * gmap nat (list A))
    (same : A → A → bool) (compareFn : A → A → result Z)
    (receivers : nat) (σ : gmap nat (list A)) (l : list A) :
  (∀ x y, same x y = true ↔ x = y) →
  (∀ unique o σ',
     callback unique o σ'
     = if negb (some unique (λ obj, same obj o) σ')
       then (unique, push unique o σ')
       else (unique, σ')) →
  σ !! receivers = Some l →
  (let '(empty, σ1) := new_array [] σ in
   let '(uniqueReceivers, σ2) := reduce callback receivers empty σ1 in
   sort uniqueReceivers compareFn σ2)
  = match sorted_copy compareFn (first_occurrences l) with
    | Ok sorted => (Ok (fresh (dom σ)), <[fresh (dom σ) := sorted]> σ)
    | Throw t => (Throw t, <[fresh (dom σ) := first_occurrences l]> σ)
    end.
Proof.
  intros Hsame Hcallback Hl. unfold new_array, reduce.
  set (u := fresh (dom σ)).
  assert (σ !! u = None) as Hu by apply not_elem_of_dom, is_fresh.
  assert (u ≠ receivers) as Hne by (intros ->; congruence).
  rewrite (reduce_in_keep_unique id same _ callback u Hcallback) with (l := l).
  - rewrite (fold_keep_unique_nil id same Hsame), list_fmap_id.
    rewrite insert_insert_eq. unfold sort. rewrite lookup_insert_eq. simpl.
    destruct (sorted_copy compareFn (first_occurrences l)); [|done].
    by rewrite insert_insert_eq.
  - intros x σ'. unfold push. by rewrite lookup_alter_ne.
  - by rewrite lookup_insert_ne.
  - by rewrite lookup_insert_eq.
Qed.

Lemma formatDripsReceivers_run (receivers : nat)
    (σ : gmap nat (list DripsReceiverStruct.t)) l :
  σ !! receivers = Some l →
  AddressAppClient.formatDripsReceivers receivers σ
  = match sorted_copy AddressAppClient.compareDripsReceivers
            (first_occurrences l) with
    | Ok sorted => (Ok (fresh (dom σ)), <[fresh (dom σ) := sorted]> σ)
    | Throw t => (Throw t, <[fresh (dom σ) := first_occurrences l]> σ)
    end.
Proof.
  intros Hl. unfold AddressAppClient.formatDripsReceivers.
  by apply (format_run _
    (λ a b, String.eqb (DripsReceiverStruct.userId a) (DripsReceiverStruct.userId b)
            && (DripsReceiverStruct.config a =? DripsReceiverStruct.config b))
    _ _ _ _ same_drips_receiver).
Qed.

Lemma formatSplitReceivers_run (receivers : nat)
    (σ : gmap nat (list SplitsReceiverStruct.t)) l :
  σ !! receivers = Some l →
  AddressAppClient.formatSplitReceivers receivers σ
  = match sorted_copy AddressAppClient.compareSplitsReceivers
            (first_occurrences l) with
    | Ok sorted => (Ok (fresh (dom σ)), <[fresh (dom σ) := sorted]> σ)
    | Throw t => (Throw t, <[fresh (dom σ) := first_occurrences l]> σ)
    end.
Proof.
  intros Hl. unfold AddressAppClient.formatSplitReceivers.
  by apply (format_run _
    (λ a b, String.eqb (SplitsReceiverStruct.userId a) (SplitsReceiverStruct.userId b)
            && (SplitsReceiverStruct.weight a =? SplitsReceiverStruct.weight b))
    _ _ _ _ same_splits_receiver).
Qed.

(** The elements returned depend on the elements handed in, not on the
    store around them. *)
Lemma canonicalizeDripsReceivers_eq l :
  canonicalizeDripsReceivers l
  = sorted_copy AddressAppClient.compareDripsReceivers (first_occurrences l).
Proof.
  unfold canonicalizeDripsReceivers.
  rewrite (formatDripsReceivers_run _ _ l) by apply lookup_singleton_eq.
  destruct (sorted_copy _ _); simpl; [|done].
  by rewrite lookup_insert_eq.
Qed.

Lemma canonicalizeSplitsReceivers_eq l :
  canonicalizeSplitsReceivers l
  = sorted_copy AddressAppClient.compareSplitsReceivers (first_occurrences l).
Proof.
  unfold canonicalizeSplitsReceivers.
  rewrite (formatSplitReceivers_run _ _ l) by apply lookup_singleton_eq.
  destruct (sorted_copy _ _); simpl; [|done].
  by rewrite lookup_insert_eq.
Qed.

(** The input array is never written, whatever the outcome. *)
Lemma formatDripsReceivers_frame (receivers r : nat)
    (σ : gmap nat (list DripsReceiverStruct.t)) l :
  σ !! receivers = Some l → is_Some (σ !! r) →
  (AddressAppClient.formatDripsReceivers receivers σ).2 !! r = σ !! r.
Proof.
  intros Hl [k Hr]. rewrite (formatDripsReceivers_run _ _ l Hl).
  assert (fresh (dom σ) ≠ r) as Hne.
  { intros <-. pose proof (is_fresh (dom σ)) as Hf.
    apply not_elem_of_dom in Hf. congruence. }
  destruct (sorted_copy _ _); simpl; by rewrite lookup_insert_ne.
Qed.

(** ** Canonicalization of drips receivers *)

Lemma readable_first_occurrences {A} `{EqDecision A} (id : A → string) l :
  Forall (λ r, readable (id r)) l →
  Forall (λ r, readable (id r)) (first_occurrences l).
Proof.
  rewrite !Forall_forall. intros Hl r Hr.
  by apply Hl, elem_of_first_occurrences.
Qed.

(** Among the readable receivers of a list that spells every number in
    one way, the ordering key tells receivers apart. *)
Lemma drips_key_inj (l : list DripsReceiverStruct.t) a b :
  readable (DripsReceiverStruct.userId a) →
  readable (DripsReceiverStruct.userId b) →
  one_spelling l → a ∈ l → b ∈ l → drips_key a = drips_key b → a = b.
Proof.
  intros [na Hna] [nb Hnb] Hspell Ha Hb Hkey.
  unfold drips_key in Hkey. rewrite Hna, Hnb in Hkey. simpl in Hkey.
  injection Hkey as Hn Hc.
  assert (DripsReceiverStruct.userId a = DripsReceiverStruct.userId b) as Hid.
  { apply Hspell; [done..|]. by rewrite Hna, Hnb, Hn. }
  destruct a, b; simpl in *. by subst.
Qed.

(** C1.  For every list of drips receivers with readable user IDs,
    [#formatDripsReceivers] returns a new array and leaves the store,
    its argument included, as it was.  The returned array holds every
    receiver of the input once (two entries are the same receiver when their
    [userId] and their [config] are the same), the first of equal entries
    being the one kept: entries that share an ordering key stand in the order
    of their first occurrences.  It is sorted ascending by the user ID and
    then the packed config, both compared as integers; when the input spells
    every user ID number in one way, no two entries share an ordering
    key. *)
Theorem formatDripsReceivers_canonical
    (σ : gmap nat (list DripsReceiverStruct.t)) (receivers : nat)
    (l : list DripsReceiverStruct.t) :
  σ !! receivers = Some l →
  Forall (λ r, readable (DripsReceiverStruct.userId r)) l →
  ∃ (sortedReceivers : nat) (out : list DripsReceiverStruct.t),
    AddressAppClient.formatDripsReceivers receivers σ
      = (Ok sortedReceivers, <[sortedReceivers := out]> σ)
    ∧ σ !! sortedReceivers = None
    ∧ <[sortedReceivers := out]> σ !! receivers = Some l
    ∧ NoDup out
    ∧ (∀ r, r ∈ out ↔ r ∈ l)
    ∧ (∀ k, filter (λ r, drips_key r = k) out
            = filter (λ r, drips_key r = k) (first_occurrences l))
    ∧ StronglySorted (λ a b, pair_le (drips_key a) (drips_key b)) out
    ∧ (one_spelling l → NoDup (drips_key <$> out)).
Proof.
  intros Hl Hok. rewrite (formatDripsReceivers_run _ _ l Hl).
  destruct (sorted_copy_returns _ _ drips_key pair_le
              compareDripsReceivers_spec (first_occurrences l))
    as [out Hout]; [by apply readable_first_occurrences|].
  rewrite Hout. exists (fresh (dom σ)), out.
  assert (σ !! fresh (dom σ) = None) as Hu by apply not_elem_of_dom, is_fresh.
  pose proof (sorted_copy_perm _ _ _ Hout) as Hperm.
  split; [done|]. split; [done|]. split.
  { rewrite lookup_insert_ne; [done|]. intros Heq. congruence. }
  split; [rewrite Hperm; apply NoDup_first_occurrences|].
  split; [intros r; by rewrite Hperm, elem_of_first_occurrences|].
  split; [|split].
  - intros k. by apply (sorted_copy_stable _ _ drips_key pair_le
                          compareDripsReceivers_spec).
  - by apply (sorted_copy_sorted _ _ drips_key pair_le
                compareDripsReceivers_spec (first_occurrences l)).
  - intros Hspell. apply NoDup_fmap_2_strong.
    + intros a b Ha Hb Hkey.
      rewrite Hperm, elem_of_first_occurrences in Ha.
      rewrite Hperm, elem_of_first_occurrences in Hb.
      rewrite Forall_forall in Hok.
      apply drips_key_inj with l; by auto.
    + rewrite Hperm. apply NoDup_first_occurrences.
Qed.

Lemma formatDripsReceivers_canonical_witness :
  let l := [DripsReceiverStruct.mk "100" 7; DripsReceiverStruct.mk "1" 7;
            DripsReceiverStruct.mk "50" 7; DripsReceiverStruct.mk "1" 7] in
  let σ : gmap nat (list DripsReceiverStruct.t) := {[ 0%nat := l ]} in
  ∃ (sortedReceivers : nat) (out : list DripsReceiverStruct.t),
    AddressAppClient.formatDripsReceivers 0%nat σ
      = (Ok sortedReceivers, <[sortedReceivers := out]> σ)
    ∧ σ !! sortedReceivers = None
    ∧ <[sortedReceivers := out]> σ !! 0%nat = Some l
    ∧ NoDup out
    ∧ (∀ r, r ∈ out ↔ r ∈ l)
    ∧ (∀ k, filter (λ r, drips_key r = k) out
            = filter (λ r, drips_key r = k) (first_occurrences l))
    ∧ StronglySorted (λ a b, pair_le (drips_key a) (drips_key b)) out
    ∧ (one_spelling l → NoDup (drips_key <$> out)).
Proof.
  intros l σ. apply (formatDripsReceivers_canonical σ 0%nat l).
  - reflexivity.
  - repeat constructor; eexists; reflexivity.
Defined.

(** User IDs [100, 1, 50] with equal configs come out as [1, 50, 100]. *)
Example canonicalize_100_1_50 :
  canonicalizeDripsReceivers
    [DripsReceiverStruct.mk "100" 7; DripsReceiverStruct.mk "1" 7;
     DripsReceiverStruct.mk "50" 7]
  = Ok [DripsReceiverStruct.mk "1" 7; DripsReceiverStruct.mk "50" 7;
        DripsReceiverStruct.mk "100" 7].
Proof. vm_compute. reflexivity. Qed.

(** The comparison is on integers: ["9"] sorts before ["10"], which a
    comparison of strings would put first, and [2^64] before [2^64 + 1],
    which double-precision numbers cannot tell apart. *)
Example canonicalize_compares_integers :
  canonicalizeDripsReceivers
    [DripsReceiverStruct.mk "18446744073709551617" 0;
     DripsReceiverStruct.mk "10" 0;
     DripsReceiverStruct.mk "18446744073709551616" 0;
     DripsReceiverStruct.mk "9" 0]
  = Ok [DripsReceiverStruct.mk "9" 0;
        DripsReceiverStruct.mk "10" 0;
        DripsReceiverStruct.mk "18446744073709551616" 0;
        DripsReceiverStruct.mk "18446744073709551617" 0].
Proof. vm_compute. reflexivity. Qed.

(** Two spellings of one user ID are two receivers to [===], and one key to
    the comparator: both stay, in the order they came in. *)
Example canonicalize_two_spellings :
  canonicalizeDripsReceivers
    [DripsReceiverStruct.mk "1" 5; DripsReceiverStruct.mk "0x1" 5]
  = Ok [DripsReceiverStruct.mk "1" 5; DripsReceiverStruct.mk "0x1" 5]
  ∧ canonicalizeDripsReceivers
      [DripsReceiverStruct.mk "0x1" 5; DripsReceiverStruct.mk "1" 5]
    = Ok [DripsReceiverStruct.mk "0x1" 5; DripsReceiverStruct.mk "1" 5].
Proof. split; vm_compute; reflexivity. Qed.

(** A user ID that is no number makes the comparator throw, as soon as
    there is a second receiver to compare with. *)
Example canonicalize_unreadable :
  canonicalizeDripsReceivers [DripsReceiverStruct.mk "abc" 5]
  = Ok [DripsReceiverStruct.mk "abc" 5]
  ∧ canonicalizeDripsReceivers
      [DripsReceiverStruct.mk "abc" 5; DripsReceiverStruct.mk "1" 5]
    = Throw (ThrownInvalidBigNumber "abc").
Proof. split; vm_compute; reflexivity. Qed.

(** C2, as stated, fails: the list [{userId: "1", config: 5},
    {userId: "0x1", config: 5}] and its reverse are permutations of each
    other and are returned unchanged, each in its own order. *)
Lemma canonicalize_permutation_counterexample :
  let L := [DripsReceiverStruct.mk "1" 5; DripsReceiverStruct.mk "0x1" 5] in
  let P := [DripsReceiverStruct.mk "0x1" 5; DripsReceiverStruct.mk "1" 5] in
  P ≡ₚ L
  ∧ canonicalizeDripsReceivers L = Ok L
  ∧ canonicalizeDripsReceivers P = Ok P
  ∧ canonicalizeDripsReceivers P ≠ canonicalizeDripsReceivers L.
Proof.
  intros L P. split; [apply Permutation_swap|].
  split; [vm_compute; reflexivity|].
  split; [vm_compute; reflexivity|].
  vm_compute. discriminate.
Qed.

(** C2, amended.  For every list [L] of drips receivers and every
    permutation [P] of [L], canonicalizing [P] throws exactly when
    canonicalizing [L] throws; when they return, the two outputs carry the
    same (user ID as a number, config) pairs in the same order, and they are
    the same sequence whenever [L] spells every user ID number in one way
    only.  With readable user IDs both return. *)
Theorem canonicalizeDripsReceivers_permutation
    (L P : list DripsReceiverStruct.t) :
  P ≡ₚ L →
  match canonicalizeDripsReceivers L, canonicalizeDripsReceivers P with
  | Ok outL, Ok outP =>
      drips_key <$> outP = drips_key <$> outL
      ∧ (one_spelling L → outP = outL)
  | Throw _, Throw _ => True
  | _, _ => False
  end
  ∧ (Forall (λ r, readable (DripsReceiverStruct.userId r)) L →
     ∃ outL outP,
       canonicalizeDripsReceivers L = Ok outL
       ∧ canonicalizeDripsReceivers P = Ok outP).
Proof.
  intros HP. rewrite !canonicalizeDripsReceivers_eq.
  assert (first_occurrences P ≡ₚ first_occurrences L) as Hfirst.
  { apply NoDup_Permutation; [apply NoDup_first_occurrences..|].
    intros r. by rewrite !elem_of_first_occurrences, HP. }
  split.
  - destruct (sorted_copy _ (first_occurrences L)) as [outL|tL] eqn:HoutL;
      destruct (sorted_copy _ (first_occurrences P)) as [outP|tP] eqn:HoutP;
      [| | |done].
    + pose proof (sorted_copy_perm _ _ _ HoutL) as HpL.
      pose proof (sorted_copy_perm _ _ _ HoutP) as HpP.
      pose proof (sorted_copy_sorted _ _ drips_key pair_le
                    compareDripsReceivers_spec _ _ HoutL) as HsL.
      pose proof (sorted_copy_sorted _ _ drips_key pair_le
                    compareDripsReceivers_spec _ _ HoutP) as HsP.
      assert (outP ≡ₚ outL) as Hperm by (by rewrite HpL, HpP).
      split.
      * apply (StronglySorted_unique pair_le).
        -- eapply (StronglySorted_fmap drips_key); [|exact HsP]. done.
        -- eapply (StronglySorted_fmap drips_key); [|exact HsL]. done.
        -- by rewrite Hperm.
      * intros Hspell.
        apply (StronglySorted_unique_strong
                 (λ a b, pair_le (drips_key a) (drips_key b))); [|done..].
        intros a b Ha Hb Hab Hba.
        pose proof (anti_symm pair_le _ _ Hab Hba) as Hkey.
        destruct (decide (2 ≤ length (first_occurrences L))%nat) as [Hlen|Hlen].
        -- pose proof (sorted_copy_all_ok _ _ drips_key pair_le
                         compareDripsReceivers_spec _ _ HoutL Hlen) as Hok.
           rewrite Forall_forall in Hok.
           rewrite Hperm, HpL in Ha. rewrite HpL in Hb.
           apply drips_key_inj with L; [by apply Hok|by apply Hok|done| | |done].
           ++ by apply elem_of_first_occurrences.
           ++ by apply elem_of_first_occurrences.
        -- rewrite Hperm in Ha.
           apply Permutation_length in HpL.
           destruct outL as [|x [|y outL]]; simpl in *; [|  |lia].
           ++ by apply elem_of_nil in Ha.
           ++ apply list_elem_of_singleton in Ha, Hb. congruence.
    + destruct (sorted_copy_returns_perm _ _ drips_key pair_le
                  compareDripsReceivers_spec _ (first_occurrences P) _
                  (symmetry Hfirst) HoutL) as [s Hs].
      congruence.
    + destruct (sorted_copy_returns_perm _ _ drips_key pair_le
                  compareDripsReceivers_spec _ (first_occurrences L) _
                  Hfirst HoutP) as [s Hs].
      congruence.
  - intros HL.
    assert (Forall (λ r, readable (DripsReceiverStruct.userId r)) P) as HPok
      by (by rewrite HP).
    destruct (sorted_copy_returns _ _ drips_key pair_le
                compareDripsReceivers_spec (first_occurrences L))
      as [outL HoutL]; [by apply readable_first_occurrences|].
    destruct (sorted_copy_returns _ _ drips_key pair_le
                compareDripsReceivers_spec (first_occurrences P))
      as [outP HoutP]; [by apply readable_first_occurrences|].
    by eauto.
Qed.

Lemma canonicalizeDripsReceivers_permutation_witness :
  let L := [DripsReceiverStruct.mk "100" 7; DripsReceiverStruct.mk "0x1" 7;
            DripsReceiverStruct.mk "1" 7; DripsReceiverStruct.mk "50" 7] in
  let P := [DripsReceiverStruct.mk "0x1" 7; DripsReceiverStruct.mk "100" 7;
            DripsReceiverStruct.mk "1" 7; DripsReceiverStruct.mk "50" 7] in
  match canonicalizeDripsReceivers L, canonicalizeDripsReceivers P with
  | Ok outL, Ok outP =>
      drips_key <$> outP = drips_key <$> outL
      ∧ (one_spelling L → outP = outL)
  | Throw _, Throw _ => True
  | _, _ => False
  end
  ∧ (Forall (λ r, readable (DripsReceiverStruct.userId r)) L →
     ∃ outL outP,
       canonicalizeDripsReceivers L = Ok outL
       ∧ canonicalizeDripsReceivers P = Ok outP).
Proof.
  intros L P. apply (canonicalizeDripsReceivers_permutation L P).
  apply Permutation_swap.
Defined.

(** ** Idempotence *)

Lemma canonical_fixed {A K} `{EqDecision A, EqDecision K}
    (compareFn : A → A → result Z) (ok : A → Prop) (key : A → K)
    (R : relation K) `{!Total R, !Transitive R, !AntiSymm (=) R} :
  (∀ x y,
     match compareFn x y with
     | Ok c => ok x ∧ ok y ∧ (c ≤ 0 ↔ R (key x) (key y))
     | Throw _ => ¬ (ok x ∧ ok y)
     end) →
  ∀ l out,
    sorted_copy compareFn (first_occurrences l) = Ok out →
    sorted_copy compareFn (first_occurrences out) = Ok out.
Proof.
  intros Hspec l out Hout.
  pose proof (sorted_copy_perm _ _ _ Hout) as Hperm.
  rewrite first_occurrences_NoDup
    by (rewrite Hperm; apply NoDup_first_occurrences).
  by eapply (sorted_copy_idemp compareFn ok key R Hspec).
Qed.

(** C3.  Canonicalizing the result of a canonicalization changes nothing:
    for every list of drips receivers, and for every list of splits
    receivers, running the formatter on what the formatter returned gives
    that same sequence again (and a first run that throws is all there
    is). *)
Theorem canonicalize_idempotent :
  (∀ l : list DripsReceiverStruct.t,
     (let! out := canonicalizeDripsReceivers l in canonicalizeDripsReceivers out)
     = canonicalizeDripsReceivers l)
  ∧ (∀ l : list SplitsReceiverStruct.t,
       (let! out := canonicalizeSplitsReceivers l in canonicalizeSplitsReceivers out)
       = canonicalizeSplitsReceivers l).
Proof.
  split; intros l.
  - rewrite canonicalizeDripsReceivers_eq.
    destruct (sorted_copy _ _) as [out|t] eqn:Hout; simpl; [|done].
    rewrite canonicalizeDripsReceivers_eq.
    by apply (canonical_fixed _ _ drips_key pair_le
                compareDripsReceivers_spec l).
  - rewrite canonicalizeSplitsReceivers_eq.
    destruct (sorted_copy _ _) as [out|t] eqn:Hout; simpl; [|done].
    rewrite canonicalizeSplitsReceivers_eq.
    by apply (canonical_fixed _ _ splits_key Z.le
                compareSplitsReceivers_spec l).
Qed.

(** The same on arrays: formatting the array a formatter returned yields an
    array with the same elements. *)
Lemma formatDripsReceivers_twice (receivers : nat)
    (σ : gmap nat (list DripsReceiverStruct.t)) l first σ1 :
  σ !! receivers = Some l →
  AddressAppClient.formatDripsReceivers receivers σ = (Ok first, σ1) →
  ∃ second σ2,
    AddressAppClient.formatDripsReceivers first σ1 = (Ok second, σ2)
    ∧ σ2 !! second = σ1 !! first
    ∧ σ2 !! first = σ1 !! first.
Proof.
  intros Hl. rewrite (formatDripsReceivers_run _ _ l Hl).
  destruct (sorted_copy _ _) as [out|t] eqn:Hout; [|done].
  intros [= <- <-].
  rewrite (formatDripsReceivers_run _ _ out) by apply lookup_insert_eq.
  rewrite (canonical_fixed _ _ drips_key pair_le compareDripsReceivers_spec l)
    by done.
  eexists _, _. split; [done|].
  rewrite !lookup_insert_eq. split; [done|].
  rewrite lookup_insert_ne; [by rewrite lookup_insert_eq|].
  intros Heq. pose proof (is_fresh (dom (<[fresh (dom σ) := out]> σ))) as Hf.
  rewrite Heq in Hf. apply Hf, elem_of_dom. rewrite lookup_insert_eq. by eauto.
Qed.

(** ** Canonicalization of splits receivers *)

(** C4.  The splits receivers [{userId: 1, weight: 5}, {userId: 1,
    weight: 5}, {userId: 2, weight: 1}] canonicalize to two entries, user 1
    and then user 2.  In general, for splits receivers with readable user
    IDs the output holds every receiver of the input once (the same receiver
    meaning the same [userId] and the same [weight]), is sorted ascending by
    the user ID as an integer, and nothing else: receivers of one user stand
    in the order of their first occurrences. *)
Theorem formatSplitReceivers_canonical :
  canonicalizeSplitsReceivers
    [SplitsReceiverStruct.mk "1" 5; SplitsReceiverStruct.mk "1" 5;
     SplitsReceiverStruct.mk "2" 1]
  = Ok [SplitsReceiverStruct.mk "1" 5; SplitsReceiverStruct.mk "2" 1]
  ∧ ∀ l : list SplitsReceiverStruct.t,
      Forall (λ r, readable (SplitsReceiverStruct.userId r)) l →
      ∃ out,
        canonicalizeSplitsReceivers l = Ok out
        ∧ NoDup out
        ∧ (∀ r, r ∈ out ↔ r ∈ l)
        ∧ (∀ k, filter (λ r, splits_key r = k) out
                = filter (λ r, splits_key r = k) (first_occurrences l))
        ∧ StronglySorted (λ a b, splits_key a ≤ splits_key b) out.
Proof.
  split; [vm_compute; reflexivity|].
  intros l Hok. rewrite canonicalizeSplitsReceivers_eq.
  destruct (sorted_copy_returns _ _ splits_key Z.le
              compareSplitsReceivers_spec (first_occurrences l))
    as [out Hout]; [by apply readable_first_occurrences|].
  exists out. split; [done|].
  pose proof (sorted_copy_perm _ _ _ Hout) as Hperm.
  split; [rewrite Hperm; apply NoDup_first_occurrences|].
  split; [intros r; by rewrite Hperm, elem_of_first_occurrences|].
  split.
  - intros k. by apply (sorted_copy_stable _ _ splits_key Z.le
                          compareSplitsReceivers_spec).
  - by apply (sorted_copy_sorted _ _ splits_key Z.le
                compareSplitsReceivers_spec (first_occurrences l)).
Qed.

Lemma formatSplitReceivers_canonical_witness :
  let l := [SplitsReceiverStruct.mk "2" 1; SplitsReceiverStruct.mk "1" 5;
            SplitsReceiverStruct.mk "1" 9; SplitsReceiverStruct.mk "1" 5] in
  ∃ out,
    canonicalizeSplitsReceivers l = Ok out
    ∧ NoDup out
    ∧ (∀ r, r ∈ out ↔ r ∈ l)
    ∧ (∀ k, filter (λ r, splits_key r = k) out
            = filter (λ r, splits_key r = k) (first_occurrences l))
    ∧ StronglySorted (λ a b, splits_key a ≤ splits_key b) out.
Proof.
  intros l. apply (proj2 formatSplitReceivers_canonical l).
  repeat constructor; eexists; reflexivity.
Defined.

(** Sorting by user ID only: two weights for one user stay in the order
    they came in. *)
Example canonicalize_splits_same_user :
  canonicalizeSplitsReceivers
    [SplitsReceiverStruct.mk "2" 1; SplitsReceiverStruct.mk "1" 9;
     SplitsReceiverStruct.mk "1" 5; SplitsReceiverStruct.mk "1" 9]
  = Ok [SplitsReceiverStruct.mk "1" 9; SplitsReceiverStruct.mk "1" 5;
        SplitsReceiverStruct.mk "2" 1].
Proof. vm_compute. reflexivity. Qed.

(** ** Validation of receiver lists *)

Lemma forEach_Throw {A} (callback : A → result unit) items t :
  forEach callback items = Throw t → ∃ x, x ∈ items ∧ callback x = Throw t.
Proof.
  induction items as [|x items IH]; simpl; [done|].
  destruct (callback x) as [[]|t'] eqn:Hx; simpl.
  - intros Ht. destruct (IH Ht) as (y & Hy & Hcy).
    exists y. split; [by right|done].
  - intros [= <-]. exists x. split; [by left|done].
Qed.

Lemma forEach_Ok {A} (callback : A → result unit) items :
  Forall (λ x, callback x = Ok tt) items → forEach callback items = Ok tt.
Proof.
  induction 1 as [|x items Hx _ IH]; simpl; [done|]. by rewrite Hx.
Qed.

Lemma validateDripsReceiverConfig_code c e :
  Validators.validateDripsReceiverConfig (Some c) = Throw (ThrownDrips e) →
  code e = INVALID_DRIPS_RECEIVER.
Proof.
  unfold Validators.validateDripsReceiverConfig.
  repeat match goal with
         | |- context [if ?b then _ else _] => destruct b
         end; by intros [= <-].
Qed.

Lemma validateDripsReceiver_code r t :
  Validators.validateDripsReceiver r = Throw t →
  ∃ e, t = ThrownDrips e ∧ code e = INVALID_DRIPS_RECEIVER.
Proof.
  unfold Validators.validateDripsReceiver.
  destruct (isNullOrUndefined (Validators.DripsReceiver.userId r)).
  { intros [= <-]. by eauto. }
  destruct (Validators.DripsReceiver.config r) as [c|]; simpl.
  - destruct t as [e|s].
    + intros He. exists e. split; [done|].
      by eapply validateDripsReceiverConfig_code.
    + unfold Validators.validateDripsReceiverConfig.
      repeat match goal with
             | |- context [if ?b then _ else _] => destruct b
             end; done.
  - intros [= <-]. by eauto.
Qed.

Lemma validateSplitsReceiver_code r t :
  Validators.validateSplitsReceiver r = Throw t →
  ∃ e, t = ThrownDrips e ∧ code e = INVALID_SPLITS_RECEIVER.
Proof.
  unfold Validators.validateSplitsReceiver.
  repeat match goal with
         | |- context [if ?b then _ else _] => destruct b
         end; [| | |done]; intros [= <-]; by eauto.
Qed.

Lemma validateDripsReceivers_count (items : list Validators.DripsReceiver.t) :
  raises INVALID_ARGUMENT (Validators.validateDripsReceivers (Some items))
  ↔ (100 < length items)%nat.
Proof.
  unfold raises, Validators.validateDripsReceivers,
    Validators.MAX_DRIPS_RECEIVERS.
  destruct (Nat.ltb_spec 100 (length items)) as [Hlt|Hle].
  - split; [done|]. intros _. by eauto.
  - split; [|lia]. intros (e & He & Hcode). exfalso.
    destruct (negb _); [|done].
    apply forEach_Throw in He as (r & _ & Hr).
    apply validateDripsReceiver_code in Hr as (e' & [= <-] & Hcode').
    congruence.
Qed.

Lemma validateSplitsReceivers_count (items : list Validators.SplitsReceiver.t) :
  raises INVALID_ARGUMENT (Validators.validateSplitsReceivers (Some items))
  ↔ (200 < length items)%nat.
Proof.
  unfold raises, Validators.validateSplitsReceivers,
    Validators.MAX_SPLITS_RECEIVERS.
  destruct (Nat.ltb_spec 200 (length items)) as [Hlt|Hle].
  - split; [done|]. intros _. by eauto.
  - split; [|lia]. intros (e & He & Hcode). exfalso.
    destruct (negb _); [|done].
    apply forEach_Throw in He as (r & _ & Hr).
    apply validateSplitsReceiver_code in Hr as (e' & [= <-] & Hcode').
    congruence.
Qed.

(** C5.  A drips receiver list of length 101 is rejected with an
    invalid-argument error and one of length 100 is not; the length error is
    raised exactly above 100 drips receivers and exactly above 200 splits
    receivers, the two maximum counts. *)
Theorem receivers_count_boundary :
  Validators.MAX_DRIPS_RECEIVERS = 100%nat
  ∧ Validators.MAX_SPLITS_RECEIVERS = 200%nat
  ∧ (∀ items : list Validators.DripsReceiver.t,
       length items = 101%nat →
       raises INVALID_ARGUMENT (Validators.validateDripsReceivers (Some items)))
  ∧ (∀ items : list Validators.DripsReceiver.t,
       length items = 100%nat →
       ¬ raises INVALID_ARGUMENT (Validators.validateDripsReceivers (Some items)))
  ∧ (∀ items : list Validators.DripsReceiver.t,
       raises INVALID_ARGUMENT (Validators.validateDripsReceivers (Some items))
       ↔ (100 < length items)%nat)
  ∧ (∀ items : list Validators.SplitsReceiver.t,
       raises INVALID_ARGUMENT (Validators.validateSplitsReceivers (Some items))
       ↔ (200 < length items)%nat).
Proof.
  split; [done|]. split; [done|]. split; [|split; [|split]].
  - intros items Hlen. apply validateDripsReceivers_count. lia.
  - intros items Hlen. rewrite validateDripsReceivers_count. lia.
  - apply validateDripsReceivers_count.
  - apply validateSplitsReceivers_count.
Qed.

Lemma receivers_count_boundary_witness :
  let r := Validators.DripsReceiver.mk (Some "1")
             (Some (Validators.DripsReceiverConfig.mk
                      (Some 0) (Some 0) (Some 0) (Some 1))) in
  raises INVALID_ARGUMENT
    (Validators.validateDripsReceivers (Some (replicate 101 r)))
  ∧ ¬ raises INVALID_ARGUMENT
        (Validators.validateDripsReceivers (Some (replicate 100 r))).
Proof.
  intros r. split.
  - apply (proj1 (proj2 (proj2 receivers_count_boundary))). reflexivity.
  - apply (proj1 (proj2 (proj2 (proj2 receivers_count_boundary)))). reflexivity.
Defined.

(** The error for 101 drips receivers. *)
Example validateDripsReceivers_101 :
  ∃ value,
    Validators.validateDripsReceivers
      (Some (replicate 101
               (Validators.DripsReceiver.mk (Some "1")
                  (Some (Validators.DripsReceiverConfig.mk
                           (Some 0) (Some 0) (Some 0) (Some 1))))))
    = throwDrips
        (DripsErrors.argumentError
           "Drips receivers validation failed: max number of drips receivers exceeded. Max allowed 100 but were 101."
           "receivers" value).
Proof. eexists. vm_compute. reflexivity. Qed.

(** A hundred valid drips receivers pass. *)
Example validateDripsReceivers_100 :
  Validators.validateDripsReceivers
    (Some (replicate 100
             (Validators.DripsReceiver.mk (Some "1")
                (Some (Validators.DripsReceiverConfig.mk
                         (Some 0) (Some 0) (Some 0) (Some 1))))))
  = Ok tt.
Proof. vm_compute. reflexivity. Qed.

(** ** Validation of a drips receiver config *)

(** A config with all four fields in range passes. *)
Lemma validateDripsReceiverConfig_valid (d s du a : Z) :
  0 ≤ d → 0 ≤ s → 0 ≤ du → 0 < a →
  Validators.validateDripsReceiverConfig
    (Some (Validators.DripsReceiverConfig.mk (Some d) (Some s) (Some du) (Some a)))
  = Ok tt.
Proof.
  intros Hd Hs Hdu Ha. unfold Validators.validateDripsReceiverConfig. simpl.
  destruct (Z.ltb_spec d 0); [lia|]. destruct (Z.ltb_spec s 0); [lia|].
  destruct (Z.ltb_spec du 0); [lia|]. destruct (Z.leb_spec a 0); [lia|].
  done.
Qed.

(** C6.  A config whose [amountPerSec] is zero, negative or missing is
    rejected with an invalid-drips-receiver error, whatever its other fields;
    with the other three fields in range the error names [amountPerSec] and
    carries its value.  A config with [amountPerSec = 1] and non-negative
    [dripId], [start] and [duration] passes. *)
Theorem amountPerSec_boundary :
  (∀ c : Validators.DripsReceiverConfig.t,
     (∃ a, Validators.DripsReceiverConfig.amountPerSec c = Some a ∧ a ≤ 0)
     ∨ Validators.DripsReceiverConfig.amountPerSec c = None →
     raises INVALID_DRIPS_RECEIVER
       (Validators.validateDripsReceiverConfig (Some c)))
  ∧ (∀ (d s du : Z) (amountPerSec : option Z),
       0 ≤ d → 0 ≤ s → 0 ≤ du →
       (∃ a, amountPerSec = Some a ∧ a ≤ 0) ∨ amountPerSec = None →
       Validators.validateDripsReceiverConfig
         (Some (Validators.DripsReceiverConfig.mk
                  (Some d) (Some s) (Some du) amountPerSec))
       = Throw (ThrownDrips
                  (DripsErrors.dripsReceiverConfigError
                     "Drips receiver config validation failed: 'amountPerSec' must be greater than 0."
                     "amountPerSec" (Validators.js_number amountPerSec))))
  ∧ (∀ d s du : Z,
       0 ≤ d → 0 ≤ s → 0 ≤ du →
       Validators.validateDripsReceiverConfig
         (Some (Validators.DripsReceiverConfig.mk
                  (Some d) (Some s) (Some du) (Some 1)))
       = Ok tt).
Proof.
  assert (∀ x : option Z,
            (∃ a, x = Some a ∧ a ≤ 0) ∨ x = None →
            isNullOrUndefined x || Validators.le_zero x = true) as Hbad.
  { intros x [(a & -> & Ha)| ->]; [|done]. simpl. by apply Z.leb_le. }
  split; [|split].
  - intros c Ha. apply Hbad in Ha.
    unfold raises, Validators.validateDripsReceiverConfig.
    rewrite Ha.
    repeat match goal with
           | |- context [if ?b then _ else _] => destruct b
           end; by eauto.
  - intros d s du a Hd Hs Hdu Ha. apply Hbad in Ha.
    unfold Validators.validateDripsReceiverConfig. simpl.
    destruct (Z.ltb_spec d 0); [lia|]. destruct (Z.ltb_spec s 0); [lia|].
    destruct (Z.ltb_spec du 0); [lia|]. simpl.
    simpl in Ha. by rewrite Ha.
  - intros d s du Hd Hs Hdu. by apply validateDripsReceiverConfig_valid.
Qed.

Lemma amountPerSec_boundary_witness :
  raises INVALID_DRIPS_RECEIVER
    (Validators.validateDripsReceiverConfig
       (Some (Validators.DripsReceiverConfig.mk
                (Some 3) (Some 0) (Some 60) (Some 0))))
  ∧ Validators.validateDripsReceiverConfig
      (Some (Validators.DripsReceiverConfig.mk
               (Some 3) (Some 0) (Some 60) (Some 0)))
    = Throw (ThrownDrips
               (DripsErrors.dripsReceiverConfigError
                  "Drips receiver config validation failed: 'amountPerSec' must be greater than 0."
                  "amountPerSec" (JsBigInt 0)))
  ∧ Validators.validateDripsReceiverConfig
      (Some (Validators.DripsReceiverConfig.mk
               (Some 3) (Some 0) (Some 60) (Some 1)))
    = Ok tt.
Proof.
  split; [|split].
  - apply (proj1 amountPerSec_boundary). left. exists 0. split; [reflexivity|lia].
  - apply (proj1 (proj2 amountPerSec_boundary) 3 0 60 (Some 0));
      [lia|lia|lia|left; exists 0; split; [reflexivity|lia]].
  - apply (proj2 (proj2 amountPerSec_boundary) 3 0 60); lia.
Defined.

(** C10.  When [dripId] is missing or negative, the error
    [validateDripsReceiverConfig] throws is the one the factory
    [dripsReceiverConfigError] builds from a message that speaks of [dripId],
    the property name [start] and the value of the [start] field: an
    invalid-drips-receiver error whose context names [start] and carries its
    value, not the name and value of [dripId]. *)
Theorem dripId_error_reports_start (c : Validators.DripsReceiverConfig.t) :
  Validators.DripsReceiverConfig.dripId c = None
  ∨ (∃ d, Validators.DripsReceiverConfig.dripId c = Some d ∧ d < 0) →
  ∃ e,
    Validators.validateDripsReceiverConfig (Some c) = Throw (ThrownDrips e)
    ∧ e = DripsErrors.dripsReceiverConfigError
            "Drips receiver config validation failed: 'dripId' must be greater than or equal to 0"
            "start"
            (Validators.js_number (Validators.DripsReceiverConfig.start c))
    ∧ code e = INVALID_DRIPS_RECEIVER
    ∧ context e
      = InvalidPropertyContext "start"
          (Validators.js_number (Validators.DripsReceiverConfig.start c))
    ∧ ∀ v, context e ≠ InvalidPropertyContext "dripId" v.
Proof.
  intros Hd. unfold Validators.validateDripsReceiverConfig.
  assert (isNullOrUndefined (Validators.DripsReceiverConfig.dripId c)
          || Validators.lt_zero (Validators.DripsReceiverConfig.dripId c)
          = true) as ->.
  { destruct Hd as [-> |(d & -> & Hd)]; [done|]. simpl. by apply Z.ltb_lt. }
  eexists. split; [done|]. simpl. repeat split. intros v. discriminate.
Qed.

Lemma dripId_error_reports_start_witness :
  ∃ e,
    Validators.validateDripsReceiverConfig
      (Some (Validators.DripsReceiverConfig.mk
               (Some (-1)) (Some 42) (Some 0) (Some 1)))
    = Throw (ThrownDrips e)
    ∧ e = DripsErrors.dripsReceiverConfigError
            "Drips receiver config validation failed: 'dripId' must be greater than or equal to 0"
            "start" (JsBigInt 42)
    ∧ code e = INVALID_DRIPS_RECEIVER
    ∧ context e = InvalidPropertyContext "start" (JsBigInt 42)
    ∧ ∀ v, context e ≠ InvalidPropertyContext "dripId" v.
Proof.
  apply (dripId_error_reports_start
           (Validators.DripsReceiverConfig.mk
              (Some (-1)) (Some 42) (Some 0) (Some 1))).
  right. exists (-1). split; [reflexivity|lia].
Defined.

(** ** Who streams to a user *)

Section unique_senders.
Import DripsSubgraphClient.
Context (getDripsReceiverSeenEventsByReceiverId :
           BigNumberish → result (list DripsReceiverSeenEvent)).

(** C7.  For a receiver ID that is there and a query that answers with
    [events], [getUsersStreamingToUser] returns a new array of sender IDs in
    which every [senderUserId] of the events stands exactly once and no
    other ID does, each at the place of its first occurrence: the IDs come
    in the order in which they first appear in [events]. *)
Theorem getUsersStreamingToUser_unique_senders
    (receiverUserId : BigNumberish) (events : list DripsReceiverSeenEvent)
    (σ : gmap nat (list Z)) :
  falsy receiverUserId = false →
  getDripsReceiverSeenEventsByReceiverId receiverUserId = Ok events →
  ∃ (uniqueSenders : nat) (out : list Z),
    getUsersStreamingToUser getDripsReceiverSeenEventsByReceiverId
      receiverUserId σ
      = (Ok uniqueSenders, <[uniqueSenders := out]> σ)
    ∧ σ !! uniqueSenders = None
    ∧ NoDup out
    ∧ (∀ id, id ∈ out ↔ ∃ e, e ∈ events ∧ senderUserId e = id)
    ∧ StronglySorted lt
        ((λ id, first_index id (senderUserId <$> events)) <$> out)
    ∧ out = first_occurrences (senderUserId <$> events).
Proof.
  intros Hid Hevents. unfold getUsersStreamingToUser.
  rewrite Hid, Hevents. unfold new_array.
  set (u := fresh (dom σ)).
  assert (σ !! u = None) as Hu by apply not_elem_of_dom, is_fresh.
  rewrite (reduce_in_keep_unique senderUserId Z.eqb (λ _, Some events)
             pushUniqueSender u) with (l := events);
    [|done|done|done|by rewrite lookup_insert_eq].
  rewrite (fold_keep_unique_nil senderUserId Z.eqb Z.eqb_eq).
  rewrite insert_insert_eq.
  exists u, (first_occurrences (senderUserId <$> events)).
  split; [done|]. split; [done|].
  split; [apply NoDup_first_occurrences|].
  split; [|split; [apply first_occurrences_in_order|done]].
  intros id. rewrite elem_of_first_occurrences, list_elem_of_fmap.
  split; intros (e & H1 & H2); exists e; by split.
Qed.

End unique_senders.

Lemma getUsersStreamingToUser_unique_senders_witness :
  let ev sender block :=
    DripsSubgraphClient.mkDripsReceiverSeenEvent "id" 1 sender 9 "set" 0 block in
  let events := [ev 7 100; ev 3 101; ev 7 102; ev 5 103; ev 3 104] in
  let query := (λ _ : DripsSubgraphClient.BigNumberish, Ok events) in
  ∃ (uniqueSenders : nat) (out : list Z),
    DripsSubgraphClient.getUsersStreamingToUser query
      (DripsSubgraphClient.BNString "9") ∅
      = (Ok uniqueSenders, <[uniqueSenders := out]> ∅)
    ∧ (∅ : gmap nat (list Z)) !! uniqueSenders = None
    ∧ NoDup out
    ∧ (∀ id, id ∈ out
             ↔ ∃ e, e ∈ events ∧ DripsSubgraphClient.senderUserId e = id)
    ∧ StronglySorted lt
        ((λ id, first_index id (DripsSubgraphClient.senderUserId <$> events))
           <$> out)
    ∧ out = first_occurrences (DripsSubgraphClient.senderUserId <$> events).
Proof.
  intros ev events query.
  apply (getUsersStreamingToUser_unique_senders query
           (DripsSubgraphClient.BNString "9") events ∅); reflexivity.
Defined.

(** Senders 7, 3, 7, 5, 3 give 7, 3, 5. *)
Example unique_senders_7_3_5 :
  let ev sender :=
    DripsSubgraphClient.mkDripsReceiverSeenEvent "id" 1 sender 9 "set" 0 0 in
  let '(returned, σ) :=
    DripsSubgraphClient.getUsersStreamingToUser
      (λ _, Ok [ev 7; ev 3; ev 7; ev 5; ev 3])
      (DripsSubgraphClient.BNString "9") ∅ in
  (let! uniqueSenders := returned in Ok (σ !! uniqueSenders))
  = Ok (Some [7; 3; 5]).
Proof. vm_compute. reflexivity. Qed.

(** ** Validation comes first *)

Section validation_first.
Import AddressAppClient.
Context (validateAddress : string → result unit).
Context (validateDripsReceivers : list DripsReceiverStruct.t → result unit).
Context (validateSplitsReceivers : list SplitsReceiverStruct.t → result unit).




End validation_first.

(** With valid input [setDrips] formats both lists, logs them and sends the
    sorted, deduplicated lists to the contract; the arrays of the caller
    stay as they were. *)
Example setDrips_valid_input :
  let w :=
    AddressAppClient.mkWorld
      {[ 0%nat := [DripsReceiverStruct.mk "2" 7; DripsReceiverStruct.mk "1" 7;
                   DripsReceiverStruct.mk "2" 7];
         1%nat := [] ]}
      ∅ [] [] in
  let '(r, w') :=
    AddressAppClient.setDrips (λ _, Ok tt) (λ _, Ok tt) "token" 1%nat 0%nat 5 w in
  r = Ok tt
  ∧ AddressAppClient.sent w'
    = [AddressAppClient.SetDripsCall "token" [] 5
         [DripsReceiverStruct.mk "1" 7; DripsReceiverStruct.mk "2" 7]]
  ∧ AddressAppClient.dripsArrays w' !! 0%nat
    = AddressAppClient.dripsArrays w !! 0%nat.
Proof. vm_compute. auto. Qed.

(** ** The account estimator *)

Section estimator_facts.
Import AccountEstimator.
Context {Account AccountEstimate SqueezedDripsEvent Cycle : Type}.
Context (fetchAccount : string → Z → Env → result Account).
Context (getInfo : Z → Z → result Cycle).
Context (estimateAccount :
           option Account → Cycle → option (list SqueezedDripsEvent)
           → result AccountEstimate).

Lemma estimate_times_unchanged n (this : t Account)
    (excludingSqueezes : option (list SqueezedDripsEvent)) (env : Env) :
  estimate_times _ _ _ _ getInfo estimateAccount n this excludingSqueezes env
  = (this, env).
Proof. induction n as [|n IH]; simpl; [done|]. apply IH. Qed.

(** C9.  [estimate] changes neither the estimator (its account snapshot
    included) nor the world outside it: no request goes to the account
    service, however often it is called, and two calls with the same
    arguments return the same.  [refreshAccount] sends one request; when it
    is answered the snapshot is the answer, whatever the snapshot was before,
    and when it fails the snapshot stays. *)
Theorem estimate_is_read_only :
  (∀ (this : t Account) excludingSqueezes env,
     ∃ r,
       estimate _ _ _ _ getInfo estimateAccount this excludingSqueezes env
       = (r, this, env))
  ∧ (∀ (this : t Account) excludingSqueezes env,
       let '(r, this', env') :=
         estimate _ _ _ _ getInfo estimateAccount this excludingSqueezes env in
       estimate _ _ _ _ getInfo estimateAccount this' excludingSqueezes env'
       = (r, this', env'))
  ∧ (∀ n (this : t Account) excludingSqueezes env,
       estimate_times _ _ _ _ getInfo estimateAccount n this
         excludingSqueezes env
       = (this, env))
  ∧ (∀ (this : t Account) env,
       ∃ r this',
         refreshAccount _ fetchAccount this env
         = (r, this',
            mkEnv (now env) (requests env ++ [(userId _ this, chainId _ this)]))
         ∧ userId _ this' = userId _ this
         ∧ chainId _ this' = chainId _ this
         ∧ match fetchAccount (userId _ this) (chainId _ this) env with
           | Ok fetched => r = Ok tt ∧ account _ this' = Some fetched
           | Throw e => r = Throw e ∧ account _ this' = account _ this
           end)
  ∧ (∀ id chain (old1 old2 : option Account) env fetched,
       fetchAccount id chain env = Ok fetched →
       refreshAccount _ fetchAccount (mk _ id chain old1) env
       = refreshAccount _ fetchAccount (mk _ id chain old2) env).
Proof.
  split; [|split; [|split; [|split]]].
  - intros. unfold estimate. by eauto.
  - intros. unfold estimate. done.
  - intros. apply estimate_times_unchanged.
  - intros this env. unfold refreshAccount.
    destruct (fetchAccount _ _ env) as [fetched|e]; by eauto 10.
  - intros id chain old1 old2 env fetched Hfetch. unfold refreshAccount.
    simpl. by rewrite Hfetch.
Qed.

End estimator_facts.

Lemma estimate_is_read_only_witness :
  let fetchAccount :=
    (λ (id : string) (chain : Z) (env : AccountEstimator.Env),
       Ok (length (AccountEstimator.requests env))) in
  AccountEstimator.refreshAccount nat fetchAccount
    (AccountEstimator.mk nat "42" 5 (Some 7%nat)) (AccountEstimator.mkEnv 0 [])
  = AccountEstimator.refreshAccount nat fetchAccount
      (AccountEstimator.mk nat "42" 5 None) (AccountEstimator.mkEnv 0 []).
Proof.
  intros fetchAccount.
  apply (proj2 (proj2 (proj2 (proj2
           (estimate_is_read_only (AccountEstimate := Z)
              (SqueezedDripsEvent := unit) (Cycle := Z) fetchAccount
              (λ _ clock, Ok clock) (λ _ cycle _, Ok cycle)))))
           "42" 5 (Some 7%nat) None (AccountEstimator.mkEnv 0 []) 0%nat).
  reflexivity.
Defined.

(** * Further properties *)

(** ** The two comparators *)

(** X1.  On receivers with readable user IDs the comparator of
    [#formatDripsReceivers] is a consistent comparator, as [sort] needs: it
    returns -1, 0 or 1, swapping its arguments negates the result, it
    returns 0 exactly on receivers with the same user ID number and the same
    config, and "not after" is transitive. *)
Theorem compareDripsReceivers_consistent (a b c : DripsReceiverStruct.t) :
  readable (DripsReceiverStruct.userId a) →
  readable (DripsReceiverStruct.userId b) →
  readable (DripsReceiverStruct.userId c) →
  ∃ ab ba bc ac,
    AddressAppClient.compareDripsReceivers a b = Ok ab
    ∧ AddressAppClient.compareDripsReceivers b a = Ok ba
    ∧ AddressAppClient.compareDripsReceivers b c = Ok bc
    ∧ AddressAppClient.compareDripsReceivers a c = Ok ac
    ∧ (ab = -1 ∨ ab = 0 ∨ ab = 1)
    ∧ ba = - ab
    ∧ (ab = 0 ↔ drips_key a = drips_key b)
    ∧ (ab ≤ 0 → bc ≤ 0 → ac ≤ 0)
    ∧ AddressAppClient.compareDripsReceivers a a = Ok 0.
Proof.
  intros [na Ha] [nb Hb] [nc Hc].
  unfold AddressAppClient.compareDripsReceivers, toBN_or_throw, drips_key.
  rewrite Ha, Hb, Hc. simpl. eexists _, _, _, _.
  do 4 (split; [reflexivity|]).
  rewrite !Z.gtb_ltb.
  repeat match goal with
         | |- context [?p <? ?q] => destruct (Z.ltb_spec p q)
         end;
    repeat split; try lia; try (intros [= ? ?]; lia);
    try (intros _; f_equal; lia).
Qed.

Lemma compareDripsReceivers_consistent_witness :
  let a := DripsReceiverStruct.mk "0x10" 3 in
  let b := DripsReceiverStruct.mk "16" 4 in
  let c := DripsReceiverStruct.mk "17" 0 in
  ∃ ab ba bc ac,
    AddressAppClient.compareDripsReceivers a b = Ok ab
    ∧ AddressAppClient.compareDripsReceivers b a = Ok ba
    ∧ AddressAppClient.compareDripsReceivers b c = Ok bc
    ∧ AddressAppClient.compareDripsReceivers a c = Ok ac
    ∧ (ab = -1 ∨ ab = 0 ∨ ab = 1)
    ∧ ba = - ab
    ∧ (ab = 0 ↔ drips_key a = drips_key b)
    ∧ (ab ≤ 0 → bc ≤ 0 → ac ≤ 0)
    ∧ AddressAppClient.compareDripsReceivers a a = Ok 0.
Proof.
  intros a b c. apply (compareDripsReceivers_consistent a b c);
    eexists; reflexivity.
Defined.

(** X2.  The comparator of [#formatSplitReceivers] is consistent in the same
    way and looks at the user ID number only: it returns 0 on two receivers
    of one user whatever their weights. *)
Theorem compareSplitsReceivers_consistent (a b c : SplitsReceiverStruct.t) :
  readable (SplitsReceiverStruct.userId a) →
  readable (SplitsReceiverStruct.userId b) →
  readable (SplitsReceiverStruct.userId c) →
  ∃ ab ba bc ac,
    AddressAppClient.compareSplitsReceivers a b = Ok ab
    ∧ AddressAppClient.compareSplitsReceivers b a = Ok ba
    ∧ AddressAppClient.compareSplitsReceivers b c = Ok bc
    ∧ AddressAppClient.compareSplitsReceivers a c = Ok ac
    ∧ (ab = -1 ∨ ab = 0 ∨ ab = 1)
    ∧ ba = - ab
    ∧ (ab = 0 ↔ toBN (SplitsReceiverStruct.userId a)
                 = toBN (SplitsReceiverStruct.userId b))
    ∧ (ab ≤ 0 → bc ≤ 0 → ac ≤ 0).
Proof.
  intros [na Ha] [nb Hb] [nc Hc].
  unfold AddressAppClient.compareSplitsReceivers, toBN_or_throw.
  rewrite Ha, Hb, Hc. simpl. eexists _, _, _, _.
  do 4 (split; [reflexivity|]).
  rewrite !Z.gtb_ltb.
  repeat match goal with
         | |- context [?p <? ?q] => destruct (Z.ltb_spec p q)
         end;
    repeat split; try lia; try (intros [= ?]; lia);
    try (intros _; f_equal; lia).
Qed.

Lemma compareSplitsReceivers_consistent_witness :
  let a := SplitsReceiverStruct.mk "7" 1 in
  let b := SplitsReceiverStruct.mk "0x7" 999 in
  let c := SplitsReceiverStruct.mk "8" 5 in
  ∃ ab ba bc ac,
    AddressAppClient.compareSplitsReceivers a b = Ok ab
    ∧ AddressAppClient.compareSplitsReceivers b a = Ok ba
    ∧ AddressAppClient.compareSplitsReceivers b c = Ok bc
    ∧ AddressAppClient.compareSplitsReceivers a c = Ok ac
    ∧ (ab = -1 ∨ ab = 0 ∨ ab = 1)
    ∧ ba = - ab
    ∧ (ab = 0 ↔ toBN (SplitsReceiverStruct.userId a)
                 = toBN (SplitsReceiverStruct.userId b))
    ∧ (ab ≤ 0 → bc ≤ 0 → ac ≤ 0).
Proof.
  intros a b c. apply (compareSplitsReceivers_consistent a b c);
    eexists; reflexivity.
Defined.

(** ** More on [sort] and on first occurrences *)

Section sort_outcome.
Context {A K : Type} `{EqDecision A, EqDecision K}.
Context (compareFn : A → A → result Z) (ok : A → Prop) (key : A → K).
Context (R : relation K) `{!Total R, !Transitive R, !AntiSymm (=) R}.
Hypothesis compare_spec : ∀ x y,
  match compareFn x y with
  | Ok c => ok x ∧ ok y ∧ (c ≤ 0 ↔ R (key x) (key y))
  | Throw _ => ¬ (ok x ∧ ok y)
  end.

(** The sort throws exactly when there are two elements at least and one of
    them cannot be read. *)
Lemma sorted_copy_throws_iff l :
  (∃ t, sorted_copy compareFn l = Throw t)
  ↔ (2 ≤ length l)%nat ∧ ¬ Forall ok l.
Proof.
  split.
  - intros [t Ht]. split.
    + destruct (decide (2 ≤ length l)%nat) as [|Hshort]; [done|].
      rewrite (sorted_copy_short compareFn) in Ht by lia. done.
    + intros Hall.
      destruct (sorted_copy_returns compareFn ok key R compare_spec l Hall)
        as [s Hs].
      congruence.
  - intros [Hlen Hnot].
    destruct (sorted_copy compareFn l) as [s|t] eqn:Hs; [|by eauto].
    destruct Hnot.
    by apply (sorted_copy_all_ok compareFn ok key R compare_spec l s).
Qed.

(** What the sort throws, a comparison of two of the elements threw. *)
Lemma insert_sorted_Throw x s t :
  insert_sorted compareFn x s = Throw t →
  ∃ y, y ∈ s ∧ compareFn x y = Throw t.
Proof.
  induction s as [|y s IH]; simpl; [done|].
  destruct (compareFn x y) as [c|t'] eqn:Hc; simpl.
  - destruct (c <=? 0); [done|].
    destruct (insert_sorted compareFn x s) as [r|t'']; simpl; [done|].
    intros [= <-]. destruct IH as (z & Hz & Hcz); [done|].
    exists z. split; [by right|done].
  - intros [= <-]. exists y. split; [by left|done].
Qed.

Lemma sorted_copy_Throw l t :
  sorted_copy compareFn l = Throw t →
  ∃ x y, x ∈ l ∧ y ∈ l ∧ compareFn x y = Throw t.
Proof.
  induction l as [|x l IH]; simpl; [done|].
  destruct (sorted_copy compareFn l) as [s|t'] eqn:Hs; simpl.
  - intros Hins. apply insert_sorted_Throw in Hins as (y & Hy & Hc).
    exists x, y. split; [by left|]. split; [|done].
    right. by rewrite <-(sorted_copy_perm _ _ _ Hs).
  - intros [= <-]. destruct IH as (a & b & Ha & Hb & Hc); [done|].
    exists a, b. split; [by right|]. split; [by right|done].
Qed.

(** The outcome of sorting two arrangements of the same elements: both
    throw or both return; the keys come out in one order, and so do the
    elements when readable elements with one key are one element. *)
Lemma sorted_copy_arrangements l1 l2 :
  l1 ≡ₚ l2 →
  match sorted_copy compareFn l1, sorted_copy compareFn l2 with
  | Ok o1, Ok o2 =>
      key <$> o1 = key <$> o2
      ∧ o1 ≡ₚ o2
      ∧ ((∀ a b, a ∈ l1 → b ∈ l1 → ok a → ok b → key a = key b → a = b) →
         o1 = o2)
  | Throw _, Throw _ => True
  | _, _ => False
  end.
Proof.
  intros Hperm.
  destruct (sorted_copy compareFn l1) as [o1|t1] eqn:H1;
    destruct (sorted_copy compareFn l2) as [o2|t2] eqn:H2; [| | |done].
  - pose proof (sorted_copy_perm _ _ _ H1) as Hp1.
    pose proof (sorted_copy_perm _ _ _ H2) as Hp2.
    pose proof (sorted_copy_sorted compareFn ok key R compare_spec _ _ H1)
      as Hs1.
    pose proof (sorted_copy_sorted compareFn ok key R compare_spec _ _ H2)
      as Hs2.
    assert (o1 ≡ₚ o2) as Ho by (by rewrite Hp1, Hp2).
    split; [|split; [done|]].
    + apply (StronglySorted_unique R).
      * eapply (StronglySorted_fmap key); [|exact Hs1]. done.
      * eapply (StronglySorted_fmap key); [|exact Hs2]. done.
      * by rewrite Ho.
    + intros Hinj.
      apply (StronglySorted_unique_strong (λ a b, R (key a) (key b)));
        [|done..].
      intros a b Ha Hb Hab Hba.
      pose proof (anti_symm R _ _ Hab Hba) as Hkey.
      rewrite Hp1 in Ha. rewrite Hp2, <-Hperm in Hb.
      destruct (decide (2 ≤ length l1)%nat) as [Hlen|Hlen].
      * pose proof (sorted_copy_all_ok compareFn ok key R compare_spec
                      _ _ H1 Hlen) as Hok.
        rewrite Forall_forall in Hok. by apply Hinj; auto.
      * destruct l1 as [|x [|y l1]]; simpl in *; [| |lia].
        -- by apply elem_of_nil in Ha.
        -- apply list_elem_of_singleton in Ha, Hb. congruence.
  - destruct (sorted_copy_returns_perm compareFn ok key R compare_spec
                l1 l2 o1 Hperm H1) as [s Hs].
    congruence.
  - destruct (sorted_copy_returns_perm compareFn ok key R compare_spec
                l2 l1 o2 (symmetry Hperm) H2) as [s Hs].
    congruence.
Qed.

End sort_outcome.

Section first_occurrence_more.
Context {A : Type} `{EqDecision A}.
Implicit Types (l : list A).

Lemma first_occurrences_sublist l : first_occurrences l `sublist_of` l.
Proof.
  induction l as [|x l IH]; simpl; [done|].
  apply sublist_skip. etrans; [apply sublist_filter|done].
Qed.

Lemma first_occurrences_length l :
  (length (first_occurrences l) ≤ length l)%nat.
Proof. apply sublist_length, first_occurrences_sublist. Qed.

Lemma first_occurrences_full_length l :
  length (first_occurrences l) = length l ↔ NoDup l.
Proof.
  split.
  - intros Hlen.
    assert (first_occurrences l ≡ₚ l) as <-; [|apply NoDup_first_occurrences].
    apply submseteq_length_Permutation; [|lia].
    apply sublist_submseteq, first_occurrences_sublist.
  - intros Hl. by rewrite first_occurrences_NoDup.
Qed.

(** Lists with the same members have the same first occurrences, up to
    their order. *)
Lemma first_occurrences_same_members l1 l2 :
  (∀ x, x ∈ l1 ↔ x ∈ l2) → first_occurrences l1 ≡ₚ first_occurrences l2.
Proof.
  intros Hmem. apply NoDup_Permutation; [apply NoDup_first_occurrences..|].
  intros x. by rewrite !elem_of_first_occurrences.
Qed.

(** Two first occurrences at least: two different members. *)
Lemma first_occurrences_two l :
  (2 ≤ length (first_occurrences l))%nat ↔ ∃ a b, a ∈ l ∧ b ∈ l ∧ a ≠ b.
Proof.
  pose proof (NoDup_first_occurrences l) as Hnd.
  split.
  - intros Hlen.
    destruct (first_occurrences l) as [|a [|b k]] eqn:Hk; simpl in Hlen;
      [lia|lia|].
    exists a, b.
    assert (a ∈ first_occurrences l) as Ha by (rewrite Hk; by left).
    assert (b ∈ first_occurrences l) as Hb
      by (rewrite Hk; right; by left).
    rewrite elem_of_first_occurrences in Ha, Hb.
    split; [done|]. split; [done|].
    apply NoDup_cons in Hnd as [Hnot _]. intros ->. apply Hnot. by left.
  - intros (a & b & Ha & Hb & Hab).
    rewrite <-elem_of_first_occurrences in Ha, Hb.
    destruct (first_occurrences l) as [|x [|y k]]; simpl; [| |lia].
    + by apply elem_of_nil in Ha.
    + apply list_elem_of_singleton in Ha, Hb. congruence.
Qed.

End first_occurrence_more.

(** ** More on the canonicalization of drips receivers *)

Lemma compareDripsReceivers_Throw a b t :
  AddressAppClient.compareDripsReceivers a b = Throw t →
  (¬ readable (DripsReceiverStruct.userId a)
   ∧ t = ThrownInvalidBigNumber (DripsReceiverStruct.userId a))
  ∨ (¬ readable (DripsReceiverStruct.userId b)
     ∧ t = ThrownInvalidBigNumber (DripsReceiverStruct.userId b)).
Proof.
  unfold AddressAppClient.compareDripsReceivers, toBN_or_throw, readable.
  destruct (toBN (DripsReceiverStruct.userId a)) as [na|] eqn:Ha; simpl.
  - destruct (toBN (DripsReceiverStruct.userId b)) as [nb|] eqn:Hb; simpl;
      [done|].
    intros [= <-]. right. split; [|done]. by intros [? ?].
  - intros [= <-]. left. split; [|done]. by intros [? ?].
Qed.

(** X3.  Canonicalizing drips receivers throws exactly when the list holds
    two different entries at least and some entry whose user ID is no
    number; what it throws is the error of [toBN] for such a user ID.  A
    single entry, repeated or not, is returned without its user ID ever
    being read. *)
Theorem canonicalizeDripsReceivers_throws (l : list DripsReceiverStruct.t) :
  ((∃ t, canonicalizeDripsReceivers l = Throw t)
   ↔ (∃ a b, a ∈ l ∧ b ∈ l ∧ a ≠ b)
     ∧ (∃ r, r ∈ l ∧ ¬ readable (DripsReceiverStruct.userId r)))
  ∧ (∀ t, canonicalizeDripsReceivers l = Throw t →
       ∃ r, r ∈ l ∧ ¬ readable (DripsReceiverStruct.userId r)
            ∧ t = ThrownInvalidBigNumber (DripsReceiverStruct.userId r)).
Proof.
  rewrite canonicalizeDripsReceivers_eq. split.
  - rewrite (sorted_copy_throws_iff _ _ drips_key pair_le
               compareDripsReceivers_spec).
    rewrite first_occurrences_two.
    apply and_iff_compat_l. split.
    + intros Hnot. apply not_Forall_Exists in Hnot; [|apply _].
      apply Exists_exists in Hnot as (r & Hr & Hbad).
      exists r. split; [by apply elem_of_first_occurrences|done].
    + intros (r & Hr & Hbad) Hall. rewrite Forall_forall in Hall.
      apply Hbad, Hall. by apply elem_of_first_occurrences.
  - intros t Ht. apply sorted_copy_Throw in Ht as (a & b & Ha & Hb & Hc).
    rewrite elem_of_first_occurrences in Ha, Hb.
    apply compareDripsReceivers_Throw in Hc as [[Hbad ->]|[Hbad ->]];
      by eauto.
Qed.

Lemma canonicalizeDripsReceivers_throws_witness :
  let l := [DripsReceiverStruct.mk "7" 1; DripsReceiverStruct.mk "seven" 1] in
  ∃ r, r ∈ l ∧ ¬ readable (DripsReceiverStruct.userId r)
       ∧ ThrownInvalidBigNumber "seven"
         = ThrownInvalidBigNumber (DripsReceiverStruct.userId r).
Proof.
  intros l.
  apply (proj2 (canonicalizeDripsReceivers_throws l)
           (ThrownInvalidBigNumber "seven")).
  vm_compute. reflexivity.
Defined.

(** X4.  The lists that canonicalization returns unchanged are exactly the
    lists without a repeated entry that are sorted by (user ID number,
    config) and, when they have two entries or more, have readable user
    IDs. *)
Theorem canonicalizeDripsReceivers_fixed_points
    (l : list DripsReceiverStruct.t) :
  canonicalizeDripsReceivers l = Ok l
  ↔ NoDup l
    ∧ StronglySorted (λ a b, pair_le (drips_key a) (drips_key b)) l
    ∧ ((2 ≤ length l)%nat →
       Forall (λ r, readable (DripsReceiverStruct.userId r)) l).
Proof.
  rewrite canonicalizeDripsReceivers_eq. split.
  - intros Hl.
    pose proof (sorted_copy_perm _ _ _ Hl) as Hperm.
    assert (NoDup l) as Hnd by (rewrite Hperm; apply NoDup_first_occurrences).
    split; [done|]. split.
    + by apply (sorted_copy_sorted _ _ drips_key pair_le
                  compareDripsReceivers_spec (first_occurrences l)).
    + intros Hlen. rewrite first_occurrences_NoDup in Hl by done.
      by apply (sorted_copy_all_ok _ _ drips_key pair_le
                  compareDripsReceivers_spec l l).
  - intros (Hnd & Hsorted & Hok). rewrite first_occurrences_NoDup by done.
    by apply (sorted_copy_fixed _ _ drips_key pair_le
                compareDripsReceivers_spec).
Qed.

(** X5.  When canonicalization returns, the output is never longer than the
    input; it is as long as the input exactly when no entry of the input is
    repeated, and it is empty exactly when the input is. *)
Theorem canonicalizeDripsReceivers_length
    (l out : list DripsReceiverStruct.t) :
  canonicalizeDripsReceivers l = Ok out →
  (length out ≤ length l)%nat
  ∧ (length out = length l ↔ NoDup l)
  ∧ (out = [] ↔ l = []).
Proof.
  rewrite canonicalizeDripsReceivers_eq. intros Hout.
  pose proof (sorted_copy_perm _ _ _ Hout) as Hperm.
  rewrite (Permutation_length Hperm).
  split; [apply first_occurrences_length|].
  split; [apply first_occurrences_full_length|].
  split.
  - intros ->. apply Permutation_nil_l in Hperm.
    destruct l; [done|]. simpl in Hperm. done.
  - intros ->. simpl in Hperm. by apply Permutation_nil_r in Hperm.
Qed.

Lemma canonicalizeDripsReceivers_length_witness :
  let l := [DripsReceiverStruct.mk "2" 1; DripsReceiverStruct.mk "1" 1;
            DripsReceiverStruct.mk "2" 1] in
  let out := [DripsReceiverStruct.mk "1" 1; DripsReceiverStruct.mk "2" 1] in
  (length out ≤ length l)%nat
  ∧ (length out = length l ↔ NoDup l)
  ∧ (out = [] ↔ l = []).
Proof.
  intros l out. apply (canonicalizeDripsReceivers_length l out).
  vm_compute. reflexivity.
Defined.

(** X6.  Canonicalization looks at which entries a list holds, not at how
    often or where: for two lists with the same entries, both runs throw or
    both return; the outputs carry the same (user ID number, config) pairs
    in the same order, and are the same sequence when the list spells every
    user ID number in one way only. *)
Theorem canonicalizeDripsReceivers_same_entries
    (l1 l2 : list DripsReceiverStruct.t) :
  (∀ r, r ∈ l1 ↔ r ∈ l2) →
  match canonicalizeDripsReceivers l1, canonicalizeDripsReceivers l2 with
  | Ok out1, Ok out2 =>
      drips_key <$> out1 = drips_key <$> out2
      ∧ (one_spelling l1 → out1 = out2)
  | Throw _, Throw _ => True
  | _, _ => False
  end.
Proof.
  intros Hmem. rewrite !canonicalizeDripsReceivers_eq.
  pose proof (sorted_copy_arrangements _ _ drips_key pair_le
                compareDripsReceivers_spec _ _
                (first_occurrences_same_members l1 l2 Hmem)) as Hagree.
  destruct (sorted_copy _ (first_occurrences l1)) as [out1|t1];
    destruct (sorted_copy _ (first_occurrences l2)) as [out2|t2];
    [|done..].
  destruct Hagree as (Hkeys & _ & Hsame). split; [done|].
  intros Hspell. apply Hsame. intros a b Ha Hb Hoka Hokb Hkey.
  rewrite elem_of_first_occurrences in Ha, Hb.
  by apply drips_key_inj with l1.
Qed.

Lemma canonicalizeDripsReceivers_same_entries_witness :
  let l1 := [DripsReceiverStruct.mk "2" 1; DripsReceiverStruct.mk "1" 1] in
  let l2 := [DripsReceiverStruct.mk "1" 1; DripsReceiverStruct.mk "2" 1;
             DripsReceiverStruct.mk "1" 1; DripsReceiverStruct.mk "2" 1] in
  match canonicalizeDripsReceivers l1, canonicalizeDripsReceivers l2 with
  | Ok out1, Ok out2 =>
      drips_key <$> out1 = drips_key <$> out2
      ∧ (one_spelling l1 → out1 = out2)
  | Throw _, Throw _ => True
  | _, _ => False
  end.
Proof.
  intros l1 l2. apply (canonicalizeDripsReceivers_same_entries l1 l2).
  intros r. unfold l1, l2. rewrite !elem_of_cons, !elem_of_nil. tauto.
Defined.

(** Sorted without a shared key is strictly sorted, and the other way
    round. *)
Lemma strictly_sorted_iff {A K} (key : A → K) (le lt : relation K)
    (l : list A) :
  (∀ p q, lt p q ↔ le p q ∧ p ≠ q) →
  NoDup l →
  StronglySorted (λ a b, le (key a) (key b)) l →
  StronglySorted (λ a b, lt (key a) (key b)) l
  ↔ ∀ a b, a ∈ l → b ∈ l → key a = key b → a = b.
Proof.
  intros Hlt. induction l as [|x l IH]; intros Hnd Hs.
  { split; [|constructor]. intros _ a b Ha. by apply elem_of_nil in Ha. }
  apply NoDup_cons in Hnd as [Hx Hnd].
  apply StronglySorted_cons in Hs as [Hle Hs].
  rewrite StronglySorted_cons, (IH Hnd Hs), !Forall_forall.
  rewrite Forall_forall in Hle. split.
  - intros [Hfirst Hrest] a b Ha Hb Hkey.
    apply elem_of_cons in Ha as [->|Ha]; apply elem_of_cons in Hb as [->|Hb].
    + done.
    + apply Hfirst, Hlt in Hb as [_ Hne]. done.
    + apply Hfirst, Hlt in Ha as [_ Hne]. done.
    + by apply Hrest.
  - intros Hinj. split.
    + intros y Hy. apply Hlt. split; [by apply Hle|].
      intros Hkey. apply Hx.
      rewrite (Hinj x y); [done|by left|by right|done].
    + intros a b Ha Hb. apply Hinj; by right.
Qed.

Lemma pair_lt_le_ne (p q : Z * Z) : pair_lt p q ↔ pair_le p q ∧ p ≠ q.
Proof.
  destruct p as [a b], q as [c d]. unfold pair_lt, pair_le. simpl. split.
  - intros H. split; [lia|]. intros [= -> ->]. lia.
  - intros [H Hne].
    destruct (decide (a = c)) as [->|]; [|lia].
    destruct (decide (b = d)) as [->|]; [done|lia].
Qed.

(** X7.  When canonicalization returns, its output is strictly ascending by
    (user ID number, config) exactly when no two different entries of the
    input share that pair; with readable user IDs, each number spelled in
    one way, this is so. *)
Theorem canonicalizeDripsReceivers_strictly_ascending
    (l out : list DripsReceiverStruct.t) :
  canonicalizeDripsReceivers l = Ok out →
  (StronglySorted (λ a b, pair_lt (drips_key a) (drips_key b)) out
   ↔ ∀ a b, a ∈ l → b ∈ l → drips_key a = drips_key b → a = b)
  ∧ (Forall (λ r, readable (DripsReceiverStruct.userId r)) l →
     one_spelling l →
     StronglySorted (λ a b, pair_lt (drips_key a) (drips_key b)) out).
Proof.
  rewrite canonicalizeDripsReceivers_eq. intros Hout.
  pose proof (sorted_copy_perm _ _ _ Hout) as Hperm.
  assert (∀ r, r ∈ out ↔ r ∈ l) as Hmem
    by (intros r; by rewrite Hperm, elem_of_first_occurrences).
  assert (StronglySorted (λ a b, pair_lt (drips_key a) (drips_key b)) out
          ↔ ∀ a b, a ∈ l → b ∈ l → drips_key a = drips_key b → a = b)
    as Hiff.
  { rewrite (strictly_sorted_iff drips_key pair_le pair_lt out
               pair_lt_le_ne).
    - split; intros H a b Ha Hb; apply H; by apply Hmem.
    - rewrite Hperm. apply NoDup_first_occurrences.
    - by apply (sorted_copy_sorted _ _ drips_key pair_le
                  compareDripsReceivers_spec (first_occurrences l)). }
  split; [done|]. intros Hok Hspell. apply Hiff. intros a b Ha Hb Hkey.
  rewrite Forall_forall in Hok. apply drips_key_inj with l; by auto.
Qed.

Lemma canonicalizeDripsReceivers_strictly_ascending_witness :
  let l := [DripsReceiverStruct.mk "2" 1; DripsReceiverStruct.mk "1" 4;
            DripsReceiverStruct.mk "1" 3] in
  let out := [DripsReceiverStruct.mk "1" 3; DripsReceiverStruct.mk "1" 4;
              DripsReceiverStruct.mk "2" 1] in
  (StronglySorted (λ a b, pair_lt (drips_key a) (drips_key b)) out
   ↔ ∀ a b, a ∈ l → b ∈ l → drips_key a = drips_key b → a = b)
  ∧ (Forall (λ r, readable (DripsReceiverStruct.userId r)) l →
     one_spelling l →
     StronglySorted (λ a b, pair_lt (drips_key a) (drips_key b)) out).
Proof.
  intros l out. apply (canonicalizeDripsReceivers_strictly_ascending l out).
  vm_compute. reflexivity.
Defined.

(** ** More on the canonicalization of splits receivers *)

(** X8.  For two lists of splits receivers with the same entries, both runs
    of the canonicalization throw or both return; the outputs hold the same
    entries, with the same user ID numbers in the same order, and are the
    same sequence when no user ID number stands in two different entries.
    (Two weights for one user come out in the order of the input.) *)
Theorem canonicalizeSplitsReceivers_same_entries
    (l1 l2 : list SplitsReceiverStruct.t) :
  (∀ r, r ∈ l1 ↔ r ∈ l2) →
  match canonicalizeSplitsReceivers l1, canonicalizeSplitsReceivers l2 with
  | Ok out1, Ok out2 =>
      splits_key <$> out1 = splits_key <$> out2
      ∧ out1 ≡ₚ out2
      ∧ ((∀ a b, a ∈ l1 → b ∈ l1 →
            toBN (SplitsReceiverStruct.userId a)
            = toBN (SplitsReceiverStruct.userId b) → a = b) →
         out1 = out2)
  | Throw _, Throw _ => True
  | _, _ => False
  end.
Proof.
  intros Hmem. rewrite !canonicalizeSplitsReceivers_eq.
  pose proof (sorted_copy_arrangements _ _ splits_key Z.le
                compareSplitsReceivers_spec _ _
                (first_occurrences_same_members l1 l2 Hmem)) as Hagree.
  destruct (sorted_copy _ (first_occurrences l1)) as [out1|t1];
    destruct (sorted_copy _ (first_occurrences l2)) as [out2|t2];
    [|done..].
  destruct Hagree as (Hkeys & Hperm & Hsame).
  split; [done|]. split; [done|].
  intros Hinj. apply Hsame. intros a b Ha Hb [na Hna] [nb Hnb] Hkey.
  rewrite elem_of_first_occurrences in Ha, Hb.
  apply Hinj; [done..|]. unfold splits_key in Hkey.
  rewrite Hna, Hnb in Hkey. simpl in Hkey. by rewrite Hna, Hnb, Hkey.
Qed.

Lemma canonicalizeSplitsReceivers_same_entries_witness :
  let l1 := [SplitsReceiverStruct.mk "2" 1; SplitsReceiverStruct.mk "1" 9] in
  let l2 := [SplitsReceiverStruct.mk "1" 9; SplitsReceiverStruct.mk "2" 1;
             SplitsReceiverStruct.mk "1" 9] in
  match canonicalizeSplitsReceivers l1, canonicalizeSplitsReceivers l2 with
  | Ok out1, Ok out2 =>
      splits_key <$> out1 = splits_key <$> out2
      ∧ out1 ≡ₚ out2
      ∧ ((∀ a b, a ∈ l1 → b ∈ l1 →
            toBN (SplitsReceiverStruct.userId a)
            = toBN (SplitsReceiverStruct.userId b) → a = b) →
         out1 = out2)
  | Throw _, Throw _ => True
  | _, _ => False
  end.
Proof.
  intros l1 l2. apply (canonicalizeSplitsReceivers_same_entries l1 l2).
  intros r. unfold l1, l2. rewrite !elem_of_cons, !elem_of_nil. tauto.
Defined.

(** Two weights for one user: the order of the input decides. *)
Example canonicalizeSplitsReceivers_order_matters :
  canonicalizeSplitsReceivers
    [SplitsReceiverStruct.mk "1" 9; SplitsReceiverStruct.mk "1" 5]
  = Ok [SplitsReceiverStruct.mk "1" 9; SplitsReceiverStruct.mk "1" 5]
  ∧ canonicalizeSplitsReceivers
      [SplitsReceiverStruct.mk "1" 5; SplitsReceiverStruct.mk "1" 9]
    = Ok [SplitsReceiverStruct.mk "1" 5; SplitsReceiverStruct.mk "1" 9].
Proof. split; vm_compute; reflexivity. Qed.

(** X9.  When the canonicalization of splits receivers returns, its output
    is strictly ascending by user ID number, one entry per user, exactly
    when no two different entries of the input share a user ID number. *)
Theorem canonicalizeSplitsReceivers_strictly_ascending
    (l out : list SplitsReceiverStruct.t) :
  canonicalizeSplitsReceivers l = Ok out →
  StronglySorted (λ a b, splits_key a < splits_key b) out
  ↔ ∀ a b, a ∈ l → b ∈ l → splits_key a = splits_key b → a = b.
Proof.
  rewrite canonicalizeSplitsReceivers_eq. intros Hout.
  pose proof (sorted_copy_perm _ _ _ Hout) as Hperm.
  assert (∀ r, r ∈ out ↔ r ∈ l) as Hmem
    by (intros r; by rewrite Hperm, elem_of_first_occurrences).
  rewrite (strictly_sorted_iff splits_key Z.le Z.lt out).
  - split; intros H a b Ha Hb; apply H; by apply Hmem.
  - intros p q. lia.
  - rewrite Hperm. apply NoDup_first_occurrences.
  - by apply (sorted_copy_sorted _ _ splits_key Z.le
                compareSplitsReceivers_spec (first_occurrences l)).
Qed.

Lemma canonicalizeSplitsReceivers_strictly_ascending_witness :
  let l := [SplitsReceiverStruct.mk "2" 1; SplitsReceiverStruct.mk "1" 9;
            SplitsReceiverStruct.mk "2" 1] in
  let out := [SplitsReceiverStruct.mk "1" 9; SplitsReceiverStruct.mk "2" 1] in
  StronglySorted (λ a b, splits_key a < splits_key b) out
  ↔ ∀ a b, a ∈ l → b ∈ l → splits_key a = splits_key b → a = b.
Proof.
  intros l out. apply (canonicalizeSplitsReceivers_strictly_ascending l out).
  vm_compute. reflexivity.
Defined.

(** ** The formatters and the store *)

Lemma format_run_dangling {A}
    (callback : nat → A → gmap nat (list A) → nat * gmap nat (list A))
    (compareFn : A → A → result Z) (receivers : nat) (σ : gmap nat (list A)) :
  σ !! receivers = None →
  (let '(empty, σ1) := new_array [] σ in
   let '(uniqueReceivers, σ2) := reduce callback receivers empty σ1 in
   sort uniqueReceivers compareFn σ2)
  = (Ok (fresh (dom σ)), <[fresh (dom σ) := []]> σ).
Proof.
  intros Hnone. unfold new_array, reduce, reduce_in.
  set (u := fresh (dom σ)).
  assert (default [] (<[u := []]> σ !! receivers) = []) as ->.
  { destruct (decide (u = receivers)) as [<-|Hne].
    - by rewrite lookup_insert_eq.
    - by rewrite lookup_insert_ne, Hnone. }
  simpl. unfold sort. rewrite lookup_insert_eq. simpl.
  by rewrite insert_insert_eq.
Qed.

(** Whatever a formatter is handed and however it ends, the store
    afterwards is the store before with one new array. *)
Lemma formatDripsReceivers_outcome (receivers : nat)
    (σ : gmap nat (list DripsReceiverStruct.t)) :
  ∃ items,
    (AddressAppClient.formatDripsReceivers receivers σ).2
      = <[fresh (dom σ) := items]> σ
    ∧ ((AddressAppClient.formatDripsReceivers receivers σ).1
         = Ok (fresh (dom σ))
       ∨ ∃ t, (AddressAppClient.formatDripsReceivers receivers σ).1 = Throw t).
Proof.
  destruct (σ !! receivers) as [l|] eqn:Hl.
  - rewrite (formatDripsReceivers_run _ _ l Hl).
    destruct (sorted_copy _ _) as [out|t]; simpl; by eauto.
  - unfold AddressAppClient.formatDripsReceivers.
    rewrite format_run_dangling by done. simpl. by eauto.
Qed.

Lemma formatSplitReceivers_outcome (receivers : nat)
    (σ : gmap nat (list SplitsReceiverStruct.t)) :
  ∃ items,
    (AddressAppClient.formatSplitReceivers receivers σ).2
      = <[fresh (dom σ) := items]> σ
    ∧ ((AddressAppClient.formatSplitReceivers receivers σ).1
         = Ok (fresh (dom σ))
       ∨ ∃ t, (AddressAppClient.formatSplitReceivers receivers σ).1 = Throw t).
Proof.
  destruct (σ !! receivers) as [l|] eqn:Hl.
  - rewrite (formatSplitReceivers_run _ _ l Hl).
    destruct (sorted_copy _ _) as [out|t]; simpl; by eauto.
  - unfold AddressAppClient.formatSplitReceivers.
    rewrite format_run_dangling by done. simpl. by eauto.
Qed.

Lemma insert_fresh_frame {A} (σ : gmap nat (list A)) (items : list A) :
  (∀ k, is_Some (σ !! k) → <[fresh (dom σ) := items]> σ !! k = σ !! k)
  ∧ dom (<[fresh (dom σ) := items]> σ) = {[fresh (dom σ)]} ∪ dom σ
  ∧ σ !! fresh (dom σ) = None.
Proof.
  assert (σ !! fresh (dom σ) = None) as Hu by apply not_elem_of_dom, is_fresh.
  split; [|split; [apply dom_insert_L|done]].
  intros k [x Hk]. rewrite lookup_insert_ne; [done|]. intros <-. congruence.
Qed.

(** X10.  Whether a formatter returns or throws, every array that was in
    the store before the call holds the same elements after it, and the
    store has grown by exactly one array, the one the formatter made; when
    the formatter returns, it returns the reference of that new array. *)
Theorem formatters_leave_arrays_alone :
  (∀ (receivers : nat) (σ : gmap nat (list DripsReceiverStruct.t)),
     let '(returned, σ') := AddressAppClient.formatDripsReceivers receivers σ in
     (∀ k, is_Some (σ !! k) → σ' !! k = σ !! k)
     ∧ dom σ' = {[fresh (dom σ)]} ∪ dom σ
     ∧ σ !! fresh (dom σ) = None
     ∧ ∀ u, returned = Ok u → u = fresh (dom σ))
  ∧ (∀ (receivers : nat) (σ : gmap nat (list SplitsReceiverStruct.t)),
       let '(returned, σ') := AddressAppClient.formatSplitReceivers receivers σ in
       (∀ k, is_Some (σ !! k) → σ' !! k = σ !! k)
       ∧ dom σ' = {[fresh (dom σ)]} ∪ dom σ
       ∧ σ !! fresh (dom σ) = None
       ∧ ∀ u, returned = Ok u → u = fresh (dom σ)).
Proof.
  split; intros receivers σ.
  - destruct (formatDripsReceivers_outcome receivers σ) as (items & Hσ & Hr).
    destruct (AddressAppClient.formatDripsReceivers receivers σ)
      as [returned σ']. simpl in Hσ, Hr. subst σ'.
    destruct (insert_fresh_frame σ items) as (Hframe & Hdom & Hnew).
    repeat split; [done..|].
    intros u ->. destruct Hr as [[= ->]|[t [=]]]. done.
  - destruct (formatSplitReceivers_outcome receivers σ) as (items & Hσ & Hr).
    destruct (AddressAppClient.formatSplitReceivers receivers σ)
      as [returned σ']. simpl in Hσ, Hr. subst σ'.
    destruct (insert_fresh_frame σ items) as (Hframe & Hdom & Hnew).
    repeat split; [done..|].
    intros u ->. destruct Hr as [[= ->]|[t [=]]]. done.
Qed.

(** ** What [setDrips] and [setSplits] do once validation has passed *)

Section set_methods.
Import AddressAppClient.
Context (validateAddress : string → result unit).
Context (validateDripsReceivers : list DripsReceiverStruct.t → result unit).
Context (validateSplitsReceivers : list SplitsReceiverStruct.t → result unit).

Lemma insert_fresh_twice_frame {A} (σ : gmap nat (list A)) (x y : list A) :
  let σ1 := <[fresh (dom σ) := x]> σ in
  let σ2 := <[fresh (dom σ1) := y]> σ1 in
  (∀ k, is_Some (σ !! k) → σ2 !! k = σ !! k)
  ∧ σ2 !! fresh (dom σ) = Some x
  ∧ σ2 !! fresh (dom σ1) = Some y.
Proof.
  intros σ1 σ2.
  destruct (insert_fresh_frame σ x) as (H1 & _ & _).
  destruct (insert_fresh_frame σ1 y) as (H2 & _ & _).
  fold σ1 in H1. fold σ2 in H2.
  assert (σ1 !! fresh (dom σ) = Some x) as Hx by apply lookup_insert_eq.
  split; [|split].
  - intros k Hk. rewrite H2; [by apply H1|]. by rewrite H1.
  - rewrite H2; [done|]. by rewrite Hx.
  - apply lookup_insert_eq.
Qed.

(** X11.  When the token address and both receiver lists pass validation
    and both lists can be sorted, [setDrips] returns and hands the contract
    exactly one call: the token, the canonical form of the current
    receivers, the balance delta and the canonical form of the new
    receivers.  It logs these two canonical lists, the current one first,
    and every array the caller holds, the two arguments included, keeps its
    elements.  The two arguments may be one and the same array. *)
Theorem setDrips_sends_canonical_lists (erc20TokenAddress : string)
    (currentReceivers newReceivers : nat) (balanceDelta : Z) (w : World)
    (current new formattedCurrent formattedNew : list DripsReceiverStruct.t) :
  validateAddress erc20TokenAddress = Ok tt →
  dripsArrays w !! currentReceivers = Some current →
  dripsArrays w !! newReceivers = Some new →
  validateDripsReceivers new = Ok tt →
  validateDripsReceivers current = Ok tt →
  canonicalizeDripsReceivers current = Ok formattedCurrent →
  canonicalizeDripsReceivers new = Ok formattedNew →
  ∃ w',
    setDrips validateAddress validateDripsReceivers erc20TokenAddress
      currentReceivers newReceivers balanceDelta w = (Ok tt, w')
    ∧ sent w' = sent w ++ [SetDripsCall erc20TokenAddress formattedCurrent
                             balanceDelta formattedNew]
    ∧ console w' = console w ++ [("current ", formattedCurrent);
                                 ("new ", formattedNew)]
    ∧ splitsArrays w' = splitsArrays w
    ∧ ∀ k, is_Some (dripsArrays w !! k) →
           dripsArrays w' !! k = dripsArrays w !! k.
Proof.
  intros Ha Hc Hn Hvn Hvc Hfc Hfn.
  rewrite canonicalizeDripsReceivers_eq in Hfc, Hfn.
  destruct (insert_fresh_twice_frame (dripsArrays w) formattedNew
              formattedCurrent) as (Hframe & Hu1 & Hu2).
  cbv zeta in Hframe, Hu1, Hu2.
  destruct (insert_fresh_frame (dripsArrays w) formattedNew) as (H1 & _ & _).
  unfold setDrips, bind, pure_step, read_drips, on_dripsArrays, console_log,
    contract_call.
  rewrite Ha. simpl. rewrite Hn. simpl. rewrite Hvn. simpl.
  rewrite Hc. simpl. rewrite Hvc. simpl.
  rewrite (formatDripsReceivers_run _ _ new Hn), Hfn. simpl.
  rewrite (formatDripsReceivers_run _ _ current), Hfc;
    [|by rewrite H1; [|rewrite Hc]].
  simpl. rewrite Hu1, Hu2. simpl.
  eexists. split; [reflexivity|]. simpl.
  split; [done|]. split; [by rewrite <- app_assoc|]. split; [done|].
  exact Hframe.
Qed.

(** X12.  However [setDrips] ends, it leaves the splits arrays and the
    elements of every drips array of the caller as they were.  When it
    throws, at validation or in a sort, it has sent nothing to the contract
    and logged nothing; when it returns, it has sent exactly one call and
    logged exactly the two receiver lists of that call. *)
Theorem setDrips_sends_once_or_never (erc20TokenAddress : string)
    (currentReceivers newReceivers : nat) (balanceDelta : Z) (w : World) :
  let '(returned, w') :=
    setDrips validateAddress validateDripsReceivers erc20TokenAddress
      currentReceivers newReceivers balanceDelta w in
  splitsArrays w' = splitsArrays w
  ∧ (∀ k, is_Some (dripsArrays w !! k) →
          dripsArrays w' !! k = dripsArrays w !! k)
  ∧ match returned with
    | Ok _ =>
        ∃ formattedCurrent formattedNew,
          sent w' = sent w ++ [SetDripsCall erc20TokenAddress formattedCurrent
                                 balanceDelta formattedNew]
          ∧ console w' = console w ++ [("current ", formattedCurrent);
                                       ("new ", formattedNew)]
    | Throw _ => sent w' = sent w ∧ console w' = console w
    end.
Proof.
  unfold setDrips, bind, pure_step, read_drips, on_dripsArrays, console_log,
    contract_call.
  destruct (validateAddress erc20TokenAddress) as [[]|t]; simpl; [|done].
  destruct (validateDripsReceivers _) as [[]|t]; simpl; [|done].
  destruct (validateDripsReceivers _) as [[]|t]; simpl; [|done].
  destruct (formatDripsReceivers_outcome newReceivers (dripsArrays w))
    as (x & Hσ1 & Hr1).
  destruct (formatDripsReceivers newReceivers (dripsArrays w)) as [r1 σ1].
  simpl in Hσ1, Hr1. subst σ1.
  destruct (insert_fresh_frame (dripsArrays w) x) as (H1 & _ & _).
  destruct Hr1 as [->|[t ->]]; simpl; [|done].
  destruct (formatDripsReceivers_outcome currentReceivers
              (<[fresh (dom (dripsArrays w)) := x]> (dripsArrays w)))
    as (y & Hσ2 & Hr2).
  destruct (formatDripsReceivers currentReceivers _) as [r2 σ2].
  simpl in Hσ2, Hr2. subst σ2.
  destruct (insert_fresh_twice_frame (dripsArrays w) x y) as (Hframe & _ & _).
  cbv zeta in Hframe.
  destruct Hr2 as [->|[t ->]]; simpl; [|done].
  split; [done|]. split; [done|].
  eexists _, _. split; [reflexivity|]. by rewrite <- app_assoc.
Qed.

(** X13.  When the receivers pass validation and can be sorted, [setSplits]
    returns and hands the contract exactly one call, which carries the
    canonical form of the receivers; the caller's arrays keep their
    elements and nothing is logged. *)
Theorem setSplits_sends_canonical_list (receivers : nat) (w : World)
    (items formatted : list SplitsReceiverStruct.t) :
  splitsArrays w !! receivers = Some items →
  validateSplitsReceivers items = Ok tt →
  canonicalizeSplitsReceivers items = Ok formatted →
  ∃ w',
    setSplits validateSplitsReceivers receivers w = (Ok tt, w')
    ∧ sent w' = sent w ++ [SetSplitsCall formatted]
    ∧ console w' = console w
    ∧ dripsArrays w' = dripsArrays w
    ∧ ∀ k, is_Some (splitsArrays w !! k) →
           splitsArrays w' !! k = splitsArrays w !! k.
Proof.
  intros Hl Hv Hf. rewrite canonicalizeSplitsReceivers_eq in Hf.
  destruct (insert_fresh_frame (splitsArrays w) formatted) as (H1 & _ & _).
  unfold setSplits, bind, pure_step, read_splits, on_splitsArrays,
    contract_call.
  rewrite Hl. simpl. rewrite Hv. simpl.
  rewrite (formatSplitReceivers_run _ _ items Hl), Hf. simpl.
  rewrite lookup_insert_eq. simpl.
  eexists. split; [reflexivity|]. simpl. done.
Qed.

End set_methods.

Lemma setDrips_sends_canonical_lists_witness :
  let r id config := DripsReceiverStruct.mk id config in
  let w :=
    AddressAppClient.mkWorld {[ 0%nat := [r "2" 1; r "1" 5; r "2" 1] ]} ∅ [] [] in
  ∃ w',
    AddressAppClient.setDrips (λ _, Ok tt) (λ _, Ok tt) "token" 0%nat 0%nat 7 w
    = (Ok tt, w')
    ∧ AddressAppClient.sent w'
      = AddressAppClient.sent w
        ++ [AddressAppClient.SetDripsCall "token" [r "1" 5; r "2" 1] 7
              [r "1" 5; r "2" 1]]
    ∧ AddressAppClient.console w'
      = AddressAppClient.console w
        ++ [("current ", [r "1" 5; r "2" 1]); ("new ", [r "1" 5; r "2" 1])]
    ∧ AddressAppClient.splitsArrays w' = AddressAppClient.splitsArrays w
    ∧ ∀ k, is_Some (AddressAppClient.dripsArrays w !! k) →
           AddressAppClient.dripsArrays w' !! k
           = AddressAppClient.dripsArrays w !! k.
Proof.
  intros r w.
  apply (setDrips_sends_canonical_lists (λ _, Ok tt) (λ _, Ok tt) "token"
           0%nat 0%nat 7 w [r "2" 1; r "1" 5; r "2" 1]
           [r "2" 1; r "1" 5; r "2" 1]); reflexivity.
Defined.

Lemma setSplits_sends_canonical_list_witness :
  let r id weight := SplitsReceiverStruct.mk id weight in
  let w :=
    AddressAppClient.mkWorld ∅ {[ 0%nat := [r "2" 1; r "1" 5; r "2" 1] ]} [] [] in
  ∃ w',
    AddressAppClient.setSplits (λ _, Ok tt) 0%nat w = (Ok tt, w')
    ∧ AddressAppClient.sent w'
      = AddressAppClient.sent w
        ++ [AddressAppClient.SetSplitsCall [r "1" 5; r "2" 1]]
    ∧ AddressAppClient.console w' = AddressAppClient.console w
    ∧ AddressAppClient.dripsArrays w' = AddressAppClient.dripsArrays w
    ∧ ∀ k, is_Some (AddressAppClient.splitsArrays w !! k) →
           AddressAppClient.splitsArrays w' !! k
           = AddressAppClient.splitsArrays w !! k.
Proof.
  intros r w.
  apply (setSplits_sends_canonical_list (λ _, Ok tt) 0%nat w
           [r "2" 1; r "1" 5; r "2" 1]); reflexivity.
Defined.

(** ** What the receiver validators accept and what they report *)

Lemma forEach_Ok_iff {A} (callback : A → result unit) (P : A → Prop) items :
  (∀ x, callback x = Ok tt ↔ P x) →
  forEach callback items = Ok tt ↔ Forall P items.
Proof.
  intros HP. induction items as [|x items IH]; simpl.
  - split; [by constructor|done].
  - destruct (callback x) as [[]|t] eqn:Hx; simpl.
    + rewrite IH. split.
      * intros Hitems. constructor; [by apply HP|done].
      * by inversion 1.
    + split; [done|]. inversion 1 as [|? ? Hpx _]; subst.
      apply HP in Hpx. congruence.
Qed.

Lemma forEach_first_failure {A} (callback : A → result unit) (P : A → Prop)
    pre x post :
  (∀ y, callback y = Ok tt ↔ P y) →
  Forall P pre → ¬ P x →
  forEach callback (pre ++ x :: post) = callback x.
Proof.
  intros HP Hpre Hx. induction Hpre as [|y pre Hy _ IH]; simpl.
  - destruct (callback x) as [[]|t] eqn:Hcx; [|done].
    by apply HP in Hcx.
  - apply HP in Hy. by rewrite Hy.
Qed.

(** The body both list validators share once the list is there: the count,
    then every element in turn. *)
Lemma counted_forEach_Ok_iff {A} (max : nat) (callback : A → result unit)
    (P : A → Prop) (items : list A) (tooMany : result unit) :
  (∀ x, callback x = Ok tt ↔ P x) →
  tooMany ≠ Ok tt →
  (if (max <? length items)%nat then tooMany
   else if negb (length items =? 0)%nat then forEach callback items
   else Ok tt) = Ok tt
  ↔ (length items ≤ max)%nat ∧ Forall P items.
Proof.
  intros HP Hmany. destruct (Nat.ltb_spec max (length items)) as [Hlt|Hle].
  - split; [done|lia].
  - destruct items as [|x items].
    + simpl. split; [by split|done].
    + change (negb (length (x :: items) =? 0)%nat) with true. cbv iota.
      rewrite (forEach_Ok_iff callback P) by done. by split; [|intros []].
Qed.

Lemma counted_forEach_first_failure {A} (max : nat)
    (callback : A → result unit) (P : A → Prop) pre x post
    (tooMany : result unit) :
  (∀ y, callback y = Ok tt ↔ P y) →
  (length (pre ++ x :: post) ≤ max)%nat →
  Forall P pre → ¬ P x →
  (if (max <? length (pre ++ x :: post))%nat then tooMany
   else if negb (length (pre ++ x :: post) =? 0)%nat
        then forEach callback (pre ++ x :: post)
   else Ok tt) = callback x.
Proof.
  intros HP Hlen Hpre Hx.
  destruct (Nat.ltb_spec max (length (pre ++ x :: post))) as [Hlt|_]; [lia|].
  destruct (Nat.eqb_spec (length (pre ++ x :: post)) 0) as [H0|_].
  { rewrite length_app in H0. simpl in H0. lia. }
  simpl. by apply (forEach_first_failure callback P).
Qed.

Lemma validateDripsReceiverConfig_in_range (c : Validators.DripsReceiverConfig.t) :
  Validators.validateDripsReceiverConfig (Some c) = Ok tt ↔ config_in_range c.
Proof.
  split.
  - destruct c as [[d|] [s|] [du|] [a|]];
      unfold Validators.validateDripsReceiverConfig; simpl; try done;
      repeat match goal with
             | |- context [(?x <? 0)] => destruct (Z.ltb_spec x 0)
             | |- context [(?x <=? 0)] => destruct (Z.leb_spec x 0)
             end; simpl; try done.
    intros _. exists d, s, du, a. repeat split; lia.
  - intros (d & s & du & a & -> & Hd & Hs & Hdu & Ha).
    by apply validateDripsReceiverConfig_valid.
Qed.

Lemma validateDripsReceiver_in_range (r : Validators.DripsReceiver.t) :
  Validators.validateDripsReceiver r = Ok tt ↔ drips_receiver_in_range r.
Proof.
  unfold drips_receiver_in_range.
  destruct r as [[id|] [c|]];
    [change (Validators.validateDripsReceiver
               (Validators.DripsReceiver.mk (Some id) (Some c)))
       with (Validators.validateDripsReceiverConfig (Some c))
    |unfold Validators.validateDripsReceiver; simpl..].
  - rewrite validateDripsReceiverConfig_in_range. simpl. split.
    + intros Hc. split; [by eauto|]. by exists c.
    + by intros (_ & c' & [= <-] & Hc).
  - split; [done|]. by intros (_ & c & [=] & _).
  - split; [done|]. by intros ([? [=]] & _).
  - split; [done|]. by intros ([? [=]] & _).
Qed.

Lemma falsy_truthy_user_id (userId : Validators.BigNumberish) :
  Validators.falsy userId = false ↔ truthy_user_id userId.
Proof.
  destruct userId as [|s|z| |object]; simpl; try (by split).
  - by destruct (String.eqb_spec s EmptyString).
  - destruct (Z.eqb_spec z 0); by split.
Qed.

Lemma validateSplitsReceiver_in_range (r : Validators.SplitsReceiver.t) :
  Validators.validateSplitsReceiver r = Ok tt ↔ splits_receiver_in_range r.
Proof.
  unfold Validators.validateSplitsReceiver, splits_receiver_in_range.
  destruct r as [userId weight]; simpl.
  rewrite <- falsy_truthy_user_id.
  destruct (Validators.falsy userId); [by split; [|intros []]|].
  destruct weight as [w|]; simpl.
  - destruct (Z.leb_spec w 0) as [Hw|Hw].
    + split; [done|]. intros (_ & w' & [= <-] & ?). lia.
    + split; [|done]. intros _. split; [done|by exists w].
  - split; [done|]. by intros (_ & ? & [=] & _).
Qed.

(** X14.  [validateDripsReceivers] returns exactly when the list is there,
    has at most 100 entries, and every entry has a user ID that is not
    missing (any string, the empty one included) and a config whose
    [dripId], [start] and [duration] are there and at least 0 and whose
    [amountPerSec] is there and above 0.  The empty list passes. *)
Theorem validateDripsReceivers_accepts_iff
    (receivers : option (list Validators.DripsReceiver.t)) :
  Validators.validateDripsReceivers receivers = Ok tt
  ↔ ∃ items, receivers = Some items
             ∧ (length items ≤ 100)%nat
             ∧ Forall drips_receiver_in_range items.
Proof.
  destruct receivers as [items|]; simpl.
  - unfold Validators.MAX_DRIPS_RECEIVERS.
    rewrite (counted_forEach_Ok_iff 100 _ drips_receiver_in_range);
      [|apply validateDripsReceiver_in_range|done].
    split.
    + intros [Hlen Hall]. by exists items.
    + by intros (? & [= <-] & Hlen & Hall).
  - split; [done|]. by intros (? & [=] & _).
Qed.


(** X16.  In a list of at most 100 drips receivers, the error
    [validateDripsReceivers] throws is the one of the first receiver that is
    out of range: the receivers before it pass, and what comes after it is
    never looked at. *)
Theorem validateDripsReceivers_reports_first_bad_receiver
    (pre post : list Validators.DripsReceiver.t)
    (r : Validators.DripsReceiver.t) :
  (length (pre ++ r :: post) ≤ 100)%nat →
  Forall drips_receiver_in_range pre →
  ¬ drips_receiver_in_range r →
  Validators.validateDripsReceivers (Some (pre ++ r :: post))
  = Validators.validateDripsReceiver r
  ∧ ∃ e, Validators.validateDripsReceiver r = Throw (ThrownDrips e)
         ∧ code e = INVALID_DRIPS_RECEIVER.
Proof.
  intros Hlen Hpre Hr. split.
  - unfold Validators.validateDripsReceivers, Validators.MAX_DRIPS_RECEIVERS.
    by apply (counted_forEach_first_failure 100 _ drips_receiver_in_range);
      [apply validateDripsReceiver_in_range|..].
  - destruct (Validators.validateDripsReceiver r) as [[]|t] eqn:Hv.
    + by apply validateDripsReceiver_in_range in Hv.
    + apply validateDripsReceiver_code in Hv as (e & -> & He). by exists e.
Qed.

Lemma validateDripsReceivers_reports_first_bad_receiver_witness :
  let config a :=
    Some (Validators.DripsReceiverConfig.mk (Some 0) (Some 0) (Some 0) (Some a)) in
  let good := Validators.DripsReceiver.mk (Some "1") (config 1) in
  let bad := Validators.DripsReceiver.mk (Some "2") (config 0) in
  let worse := Validators.DripsReceiver.mk None None in
  Validators.validateDripsReceivers (Some ([good] ++ bad :: [worse]))
  = Validators.validateDripsReceiver bad
  ∧ ∃ e, Validators.validateDripsReceiver bad = Throw (ThrownDrips e)
         ∧ code e = INVALID_DRIPS_RECEIVER.
Proof.
  intros config good bad worse.
  apply (validateDripsReceivers_reports_first_bad_receiver [good] [worse] bad).
  - simpl. lia.
  - constructor; [|constructor].
    apply validateDripsReceiver_in_range. reflexivity.
  - intros Hbad. apply validateDripsReceiver_in_range in Hbad. discriminate.
Defined.

(** X17.  In a list of at most 200 splits receivers, the error
    [validateSplitsReceivers] throws is the one of the first receiver that
    is out of range: the receivers before it pass, and what comes after it
    is never looked at. *)
Theorem validateSplitsReceivers_reports_first_bad_receiver
    (pre post : list Validators.SplitsReceiver.t)
    (r : Validators.SplitsReceiver.t) :
  (length (pre ++ r :: post) ≤ 200)%nat →
  Forall splits_receiver_in_range pre →
  ¬ splits_receiver_in_range r →
  Validators.validateSplitsReceivers (Some (pre ++ r :: post))
  = Validators.validateSplitsReceiver r
  ∧ ∃ e, Validators.validateSplitsReceiver r = Throw (ThrownDrips e)
         ∧ code e = INVALID_SPLITS_RECEIVER.
Proof.
  intros Hlen Hpre Hr. split.
  - unfold Validators.validateSplitsReceivers, Validators.MAX_SPLITS_RECEIVERS.
    by apply (counted_forEach_first_failure 200 _ splits_receiver_in_range);
      [apply validateSplitsReceiver_in_range|..].
  - destruct (Validators.validateSplitsReceiver r) as [[]|t] eqn:Hv.
    + by apply validateSplitsReceiver_in_range in Hv.
    + apply validateSplitsReceiver_code in Hv as (e & -> & He). by exists e.
Qed.

Lemma validateSplitsReceivers_reports_first_bad_receiver_witness :
  let good :=
    Validators.SplitsReceiver.mk (Validators.BigNumberishNumber 1) (Some 1) in
  let bad :=
    Validators.SplitsReceiver.mk (Validators.BigNumberishNumber 0) (Some 1) in
  let worse :=
    Validators.SplitsReceiver.mk Validators.BigNumberishNullish None in
  Validators.validateSplitsReceivers (Some ([good] ++ bad :: [worse]))
  = Validators.validateSplitsReceiver bad
  ∧ ∃ e, Validators.validateSplitsReceiver bad = Throw (ThrownDrips e)
         ∧ code e = INVALID_SPLITS_RECEIVER.
Proof.
  intros good bad worse.
  apply (validateSplitsReceivers_reports_first_bad_receiver [good] [worse] bad).
  - simpl. lia.
  - constructor; [|constructor].
    apply validateSplitsReceiver_in_range. reflexivity.
  - intros Hbad. apply validateSplitsReceiver_in_range in Hbad. discriminate.
Defined.

(** ** The validators of whole inputs *)

(** X18.  [validateEmitUserMetadataInput] returns exactly when the list is
    there and every entry has both a key and a value.  Whatever it throws,
    for a missing list too, is an SDK error of the invalid-argument kind. *)
Theorem validateEmitUserMetadataInput_outcomes
    (metadata : option (list InputValidators.UserMetadataStruct.t)) :
  (InputValidators.validateEmitUserMetadataInput metadata = Ok tt
   ↔ ∃ items, metadata = Some items
        ∧ Forall (λ meta,
            is_Some (InputValidators.UserMetadataStruct.key meta)
            ∧ is_Some (InputValidators.UserMetadataStruct.value meta)) items)
  ∧ ∀ t, InputValidators.validateEmitUserMetadataInput metadata = Throw t →
         raises INVALID_ARGUMENT
           (InputValidators.validateEmitUserMetadataInput metadata).
Proof.
  assert (∀ meta, InputValidators.validateUserMetadata meta = Ok tt
            ↔ is_Some (InputValidators.UserMetadataStruct.key meta)
              ∧ is_Some (InputValidators.UserMetadataStruct.value meta))
    as Hone.
  { intros [[k|] [v|]]; unfold InputValidators.validateUserMetadata; simpl.
    - split; [by eauto|done].
    - split; [done|]. by intros [_ [? [=]]].
    - split; [done|]. by intros [[? [=]] _].
    - split; [done|]. by intros [[? [=]] _]. }
  destruct metadata as [items|]; simpl.
  - split.
    + rewrite (forEach_Ok_iff _ _ items Hone). split.
      * intros Hall. by exists items.
      * by intros (? & [= <-] & Hall).
    + intros t Ht. rewrite Ht.
      apply forEach_Throw in Ht as (meta & _ & Hmeta).
      unfold InputValidators.validateUserMetadata in Hmeta.
      destruct (isNullOrUndefined _) in Hmeta;
        [|destruct (isNullOrUndefined _) in Hmeta; [|done]];
        injection Hmeta as <-; by eexists.
  - split.
    + split; [done|]. by intros (? & [=] & _).
    + intros t _. by eexists.
Qed.


(** ** ImmutableSplitsDriverClient.createSplits *)

(** X20.  [createSplits] hands the contract a call exactly when the
    receivers pass validation and the metadata is there; the call carries
    the receivers as the caller gave them, in their order and with their
    duplicates, and it is the only one.  When the method throws, nothing has
    been sent; an error of the validator comes before the one for missing
    metadata, and that one is a missing-argument error that names the
    argument [receivers]. *)
Theorem createSplits_outcomes
    (validateSplitsReceivers : option (list SplitsReceiverStruct.t) → result unit)
    (receivers : option (list SplitsReceiverStruct.t))
    (metadata : option (list ImmutableSplitsDriverClient.UserMetadata))
    (sent : list ImmutableSplitsDriverClient.ContractCall) :
  let '(returned, sent') :=
    ImmutableSplitsDriverClient.createSplits validateSplitsReceivers
      receivers metadata sent in
  match returned with
  | Ok _ =>
      validateSplitsReceivers receivers = Ok tt
      ∧ ∃ items, metadata = Some items
          ∧ sent' = sent ++
              [ImmutableSplitsDriverClient.CreateSplitsCall receivers items]
  | Throw t =>
      sent' = sent
      ∧ (validateSplitsReceivers receivers = Throw t
         ∨ validateSplitsReceivers receivers = Ok tt
           ∧ metadata = None
           ∧ ∃ e, t = ThrownDrips e
               ∧ code e = MISSING_ARGUMENT
               ∧ context e = MissingArgumentContext "receivers")
  end.
Proof.
  unfold ImmutableSplitsDriverClient.createSplits.
  destruct (validateSplitsReceivers receivers) as [[]|t]; [|by split; [|left]].
  destruct metadata as [items|]; simpl.
  - split; [done|]. by exists items.
  - split; [done|]. right. split; [done|]. split; [done|]. by eexists.
Qed.

(** ** AccountEstimator: creation and use *)

Section estimator_lifecycle.
Import AccountEstimator AccountEstimatorLifecycle.
Context {Account AccountEstimate SqueezedDripsEvent Cycle : Type}.
Context (clientInitializationError : string → DripsError).
Context (dependencyFactory :
  Z → result (Dependencies Account AccountEstimate SqueezedDripsEvent Cycle)).
Context (getInfo : Z → Z → result Cycle).

Abbreviation Estimator :=
  (AccountEstimatorLifecycle.Estimator Account AccountEstimate
     SqueezedDripsEvent Cycle).
Abbreviation create :=
  (AccountEstimatorLifecycle.create Account AccountEstimate SqueezedDripsEvent
     Cycle clientInitializationError dependencyFactory).
Abbreviation run :=
  (AccountEstimatorLifecycle.run Account AccountEstimate SqueezedDripsEvent
     Cycle getInfo).

(** X21.  [AccountEstimator.create] returns an estimator only for a user ID
    that is not empty and a chain ID that is not 0, and only after the
    account service has answered exactly one request, the one for this user
    and chain: the estimator holds the two IDs, the services of the
    dependency factory and the fetched account, so its account is never
    unset.  When the user ID is empty, the chain ID is 0 or the factory
    throws, [create] throws without any request; when the request fails,
    [create] throws what the request threw.  The clock is never touched. *)
Theorem create_outcomes (userId : string) (chainId : Z) (env : Env) :
  let '(returned, env') := create userId chainId env in
  now env' = now env
  ∧ match returned with
    | Ok estimator =>
        userId ≠ EmptyString ∧ chainId ≠ 0
        ∧ requests env' = requests env ++ [(userId, chainId)]
        ∧ ∃ dependencies fetched,
            dependencyFactory chainId = Ok dependencies
            ∧ accountService_fetchAccount dependencies userId chainId env
              = Ok fetched
            ∧ estimator
              = mkEstimator
                  (AccountEstimator.mk Account userId chainId (Some fetched))
                  dependencies
    | Throw t =>
        (requests env' = requests env
         ∧ (userId = EmptyString
              ∧ t = ThrownDrips (clientInitializationError
                      "Could not create 'Estimator': user ID is required.")
            ∨ userId ≠ EmptyString ∧ chainId = 0
              ∧ t = ThrownDrips (clientInitializationError
                      "Could not create 'Estimator': chain ID is required.")
            ∨ userId ≠ EmptyString ∧ chainId ≠ 0
              ∧ dependencyFactory chainId = Throw t))
        ∨ (userId ≠ EmptyString ∧ chainId ≠ 0
           ∧ requests env' = requests env ++ [(userId, chainId)]
           ∧ ∃ dependencies,
               dependencyFactory chainId = Ok dependencies
               ∧ accountService_fetchAccount dependencies userId
                   chainId env = Throw t)
    end.
Proof.
  unfold AccountEstimatorLifecycle.create.
  destruct (String.eqb_spec userId EmptyString) as [->|Hid].
  { split; [done|]. left. split; [done|]. by left. }
  destruct (Z.eqb_spec chainId 0) as [->|Hchain].
  { split; [done|]. left. split; [done|]. right. by left. }
  destruct (dependencyFactory chainId) as [dependencies|t] eqn:Hdeps.
  2:{ split; [done|]. left. split; [done|]. right. by right. }
  unfold AccountEstimatorLifecycle.refreshAccount,
    AccountEstimator.refreshAccount. simpl.
  destruct (accountService_fetchAccount dependencies userId chainId env)
    as [fetched|t] eqn:Hfetch; simpl.
  - split; [done|]. repeat (split; [done|]). by exists dependencies, fetched.
  - split; [done|]. right. repeat (split; [done|]). by exists dependencies.
Qed.

(** X22.  Whatever calls of [refreshAccount] and [estimate] are made on an
    estimator, in whatever order and whether they return or throw, the
    estimator keeps its user ID, its chain ID and its services, an account
    that was set stays set, the clock is not touched, and the account
    service has received one request per call of [refreshAccount], each for
    the estimator's user and chain, and none for a call of [estimate]. *)
Theorem estimator_invariant
    (calls : list (Call SqueezedDripsEvent)) (this : Estimator) (env : Env) :
  let '(this', env') := run calls this env in
  AccountEstimator.userId _ (fields this')
    = AccountEstimator.userId _ (fields this)
  ∧ AccountEstimator.chainId _ (fields this')
    = AccountEstimator.chainId _ (fields this)
  ∧ services this' = services this
  ∧ (is_Some (account _ (fields this))
     → is_Some (account _ (fields this')))
  ∧ now env' = now env
  ∧ requests env'
    = requests env
      ++ replicate (refreshes calls)
           (AccountEstimator.userId _ (fields this),
            AccountEstimator.chainId _ (fields this)).
Proof.
  revert this env. induction calls as [|call calls IH]; intros this env.
  { simpl. by rewrite app_nil_r. }
  destruct call as [|excludingSqueezes]; simpl.
  - unfold AccountEstimatorLifecycle.refreshAccount,
      AccountEstimator.refreshAccount.
    destruct (accountService_fetchAccount _ _ _ _) as [fetched|t];
      match goal with
      | |- context [AccountEstimatorLifecycle.run _ _ _ _ _ _ ?this1 ?env1] =>
          specialize (IH this1 env1);
          destruct (AccountEstimatorLifecycle.run _ _ _ _ _ _ this1 env1)
            as [this' env']
      end; simpl in IH;
      destruct IH as (Hu & Hc & Hs & Ha & Hn & Hr);
      rewrite Hr, <- app_assoc; simpl; repeat split; try done.
    intros _. apply Ha. by eauto.
  - unfold AccountEstimatorLifecycle.estimate, AccountEstimator.estimate.
    match goal with
    | |- context [AccountEstimatorLifecycle.run _ _ _ _ _ _ ?this1 ?env1] =>
        specialize (IH this1 env1);
        destruct (AccountEstimatorLifecycle.run _ _ _ _ _ _ this1 env1)
          as [this' env']
    end. exact IH.
Qed.

End estimator_lifecycle.

(** ** Which errors come before any other work *)



Section validation_first_amended.
Import AddressAppClient.
Context (validateAddress : string → result unit).
Context (validateDripsReceivers : list DripsReceiverStruct.t → result unit).
Context (validateSplitsReceivers : list SplitsReceiverStruct.t → result unit).




End validation_first_amended.

